(** * 3D_Web: model normalisation, anchor-preserving transforms, camera views
      and the placement registry

    A shallow embedding of [src/components/ModelViewer.tsx] (the [Model]
    component and the [CameraController]) and of the studio layout component
    that owns the list of placed models ([handleImport], [setSelectedPosition],
    [setSelectedScale], [setSelectedRotation]).  The libraries that the
    components call are not part of the repository; three.js (bounding
    boxes, the transform of a group, spherical coordinates), the orbit
    controls ([update()]) and the effect of React with its dependency list
    are modelled as far as the components use them.

    JavaScript numbers are modelled as real numbers extended with the three
    special values [Infinity], [-Infinity] and [NaN]; the special cases of
    the arithmetic ([x / 0], [0 * Infinity], [Infinity - Infinity], ...)
    follow IEEE 754, while rounding, overflow and the sign of zero are left
    out: on finite values the arithmetic is exact, and zero counts as
    positive where its sign matters ([2 / 0] is [Infinity]). *)

From Stdlib Require Import Reals Lra List String Ascii Bool Arith Lia.
Import ListNotations.

(** ** JavaScript numbers *)

Module JsNum.

Local Open Scope R_scope.

Inductive num : Type :=
| Fin (r : R)
| PosInf
| NegInf
| NaN.

Definition isFinite (x : num) : bool :=
  match x with Fin _ => true | _ => false end.

(** [r * Infinity] for a finite [r]. *)
Definition timesInfinity (r : R) : num :=
  if Req_EM_T r 0 then NaN
  else if Rlt_dec 0 r then PosInf else NegInf.

Definition neg (x : num) : num :=
  match x with
  | Fin r => Fin (- r)
  | PosInf => NegInf
  | NegInf => PosInf
  | NaN => NaN
  end.

Definition add (x y : num) : num :=
  match x, y with
  | NaN, _ | _, NaN => NaN
  | Fin a, Fin b => Fin (a + b)
  | PosInf, NegInf | NegInf, PosInf => NaN
  | PosInf, _ | _, PosInf => PosInf
  | NegInf, _ | _, NegInf => NegInf
  end.

Definition sub (x y : num) : num := add x (neg y).

Definition mul (x y : num) : num :=
  match x, y with
  | NaN, _ | _, NaN => NaN
  | Fin a, Fin b => Fin (a * b)
  | Fin a, PosInf | PosInf, Fin a => timesInfinity a
  | Fin a, NegInf | NegInf, Fin a => timesInfinity (- a)
  | PosInf, PosInf | NegInf, NegInf => PosInf
  | PosInf, NegInf | NegInf, PosInf => NegInf
  end.

Definition div (x y : num) : num :=
  match x, y with
  | NaN, _ | _, NaN => NaN
  | Fin a, Fin b => if Req_EM_T b 0 then timesInfinity a else Fin (a / b)
  | Fin _, PosInf | Fin _, NegInf => Fin 0
  | PosInf, Fin b => if Rlt_dec b 0 then NegInf else PosInf
  | NegInf, Fin b => if Rlt_dec b 0 then PosInf else NegInf
  | _, _ => NaN
  end.

(** The comparison [x < y]; false as soon as one side is [NaN]. *)
Definition lt (x y : num) : bool :=
  match x, y with
  | NaN, _ | _, NaN => false
  | Fin a, Fin b => if Rlt_dec a b then true else false
  | NegInf, NegInf => false
  | NegInf, _ => true
  | _, NegInf => false
  | PosInf, _ => false
  | Fin _, PosInf => true
  end.

(** [Math.max] and [Math.min] of two arguments. *)
Definition max (x y : num) : num :=
  match x, y with
  | NaN, _ | _, NaN => NaN
  | Fin a, Fin b => Fin (Rmax a b)
  | PosInf, _ | _, PosInf => PosInf
  | NegInf, z | z, NegInf => z
  end.

Definition min (x y : num) : num :=
  match x, y with
  | NaN, _ | _, NaN => NaN
  | Fin a, Fin b => Fin (Rmin a b)
  | NegInf, _ | _, NegInf => NegInf
  | PosInf, z | z, PosInf => z
  end.

(** [Math.max(a, b, c)]. *)
Definition max3 (a b c : num) : num := max (max a b) c.

(** [Math.cos], [Math.sin] and the constant [Math.PI]. *)
Definition jscos (x : num) : num :=
  match x with Fin r => Fin (cos r) | _ => NaN end.

Definition jssin (x : num) : num :=
  match x with Fin r => Fin (sin r) | _ => NaN end.

Definition Math_PI : num := Fin PI.

(** [x === 0] *)
Definition isZero (x : num) : bool :=
  match x with
  | Fin r => if Req_EM_T r 0 then true else false
  | _ => false
  end.

(** [Math.sqrt] and [Math.acos]. *)
Definition jssqrt (x : num) : num :=
  match x with
  | Fin r => if Rlt_dec r 0 then NaN else Fin (sqrt r)
  | PosInf => PosInf
  | _ => NaN
  end.

Definition jsacos (x : num) : num :=
  match x with
  | Fin r =>
      if Rlt_dec r (-1) then NaN
      else if Rlt_dec 1 r then NaN else Fin (acos r)
  | _ => NaN
  end.

(** The angle of the point with abscissa [x] and ordinate [y], between
    [-PI] and [PI]. *)
Definition angle (y x : R) : R :=
  if Rlt_dec 0 x then atan (y / x)
  else if Rlt_dec x 0 then
    if Rlt_dec y 0 then atan (y / x) - PI else atan (y / x) + PI
  else if Rlt_dec 0 y then PI / 2
  else if Rlt_dec y 0 then - (PI / 2)
  else 0.

(** [Math.atan2(y, x)] *)
Definition jsatan2 (y x : num) : num :=
  match y, x with
  | NaN, _ | _, NaN => NaN
  | Fin b, Fin a => Fin (angle b a)
  | Fin _, PosInf => Fin 0
  | Fin b, NegInf => if Rlt_dec b 0 then Fin (- PI) else Fin PI
  | PosInf, Fin _ => Fin (PI / 2)
  | NegInf, Fin _ => Fin (- (PI / 2))
  | PosInf, PosInf => Fin (PI / 4)
  | PosInf, NegInf => Fin (3 * PI / 4)
  | NegInf, PosInf => Fin (- (PI / 4))
  | NegInf, NegInf => Fin (- (3 * PI / 4))
  end.

End JsNum.

Import JsNum.

Declare Scope js_scope.
Delimit Scope js_scope with js.
Bind Scope js_scope with num.
Notation "x + y" := (add x y) : js_scope.
Notation "x - y" := (sub x y) : js_scope.
Notation "x * y" := (mul x y) : js_scope.
Notation "x / y" := (div x y) : js_scope.
Notation "- x" := (neg x) : js_scope.

(** ** JavaScript strings

    Strings are sequences of ASCII characters; [toLowerCase] maps the
    letters [A]..[Z] to [a]..[z] and leaves every other character alone. *)

Module JsString.

Local Open Scope string_scope.

Definition lowerChar (c : ascii) : ascii :=
  let n := nat_of_ascii c in
  if (65 <=? n)%nat && (n <=? 90)%nat then ascii_of_nat (n + 32) else c.

Fixpoint toLowerCase (s : string) : string :=
  match s with
  | EmptyString => EmptyString
  | String c s' => String (lowerChar c) (toLowerCase s')
  end.

(** [s.endsWith(suffix)]: some tail of [s] is [suffix]. *)
Fixpoint endsWith (s suffix : string) : bool :=
  String.eqb s suffix ||
  match s with
  | EmptyString => false
  | String _ s' => endsWith s' suffix
  end.

(** [s.includes(needle)]: [needle] starts at some position of [s]. *)
Fixpoint includes (s needle : string) : bool :=
  String.prefix needle s ||
  match s with
  | EmptyString => false
  | String _ s' => includes s' needle
  end.

(** Truthiness of a string: only the empty string is falsy. *)
Definition truthy (s : string) : bool := negb (String.eqb s "").

End JsString.

Import JsString.

(** ** The parts of three.js the components call

    [Vector3], [Box3], the bounding box of an [Object3D] and the local
    transform of a group.  An object is represented by its own [position]
    and [scale] together with the bounds of its geometry in its own frame;
    [setFromObject] is the box of those bounds under the object's scale and
    translation. *)

Module Three.

Local Open Scope js_scope.

Record Vector3 : Type := vec3 { vx : num; vy : num; vz : num }.

Definition setScalar (s : num) : Vector3 := vec3 s s s.

Definition addVectors (a b : Vector3) : Vector3 :=
  vec3 (vx a + vx b) (vy a + vy b) (vz a + vz b).

Definition subVectors (a b : Vector3) : Vector3 :=
  vec3 (vx a - vx b) (vy a - vy b) (vz a - vz b).

Definition multiply (a b : Vector3) : Vector3 :=
  vec3 (vx a * vx b) (vy a * vy b) (vz a * vz b).

Definition multiplyScalar (a : Vector3) (s : num) : Vector3 :=
  vec3 (vx a * s) (vy a * s) (vz a * s).

Definition vmin (a b : Vector3) : Vector3 :=
  vec3 (min (vx a) (vx b)) (min (vy a) (vy b)) (min (vz a) (vz b)).

Definition vmax (a b : Vector3) : Vector3 :=
  vec3 (max (vx a) (vx b)) (max (vy a) (vy b)) (max (vz a) (vz b)).

Definition finiteVector (v : Vector3) : bool :=
  isFinite (vx v) && isFinite (vy v) && isFinite (vz v).

Record Box3 : Type := box3 { bmin : Vector3; bmax : Vector3 }.

(** [Box3.makeEmpty]: [min = +Infinity], [max = -Infinity]. *)
Definition makeEmpty : Box3 :=
  box3 (vec3 PosInf PosInf PosInf) (vec3 NegInf NegInf NegInf).

Definition isEmpty (b : Box3) : bool :=
  lt (vx (bmax b)) (vx (bmin b)) ||
  lt (vy (bmax b)) (vy (bmin b)) ||
  lt (vz (bmax b)) (vz (bmin b)).

Definition getSize (b : Box3) : Vector3 :=
  if isEmpty b then vec3 (Fin 0) (Fin 0) (Fin 0)
  else subVectors (bmax b) (bmin b).

Definition getCenter (b : Box3) : Vector3 :=
  if isEmpty b then vec3 (Fin 0) (Fin 0) (Fin 0)
  else multiplyScalar (addVectors (bmin b) (bmax b)) (Fin (1 / 2)).

Record Object3D : Type := object3D {
  objPosition : Vector3;
  objScale : Vector3;
  objBounds : Box3
}.

Definition withScale (o : Object3D) (s : Vector3) : Object3D :=
  object3D (objPosition o) s (objBounds o).

Definition withPosition (o : Object3D) (p : Vector3) : Object3D :=
  object3D p (objScale o) (objBounds o).

(** A corner of the geometry bounds in the parent frame: the local matrix
    of the object applied as [Vector3.applyMatrix4] does.  For an object
    that is not turned [Matrix4.compose] puts the scale on the diagonal,
    [0 * scale] in the other entries of the upper block and the position in
    the last column; the last row is [0 0 0 1]. *)
Definition toParent (o : Object3D) (c : Vector3) : Vector3 :=
  let s := objScale o in
  let p := objPosition o in
  let w := Fin 1 / (Fin 0 * vx c + Fin 0 * vy c + Fin 0 * vz c + Fin 1) in
  vec3 ((vx s * vx c + Fin 0 * vy s * vy c + Fin 0 * vz s * vz c + vx p) * w)
       ((Fin 0 * vx s * vx c + vy s * vy c + Fin 0 * vz s * vz c + vy p) * w)
       ((Fin 0 * vx s * vx c + Fin 0 * vy s * vy c + vz s * vz c + vz p) * w).

(** [new Box3().setFromObject(o)]: empty when the object has no geometry,
    otherwise the box spanned by the transformed corners.  Each coordinate
    of a transformed corner is [NaN] as soon as one coordinate of the corner
    or one entry of the matrix makes it so, and then so is that coordinate
    of the box, whichever corners are taken: the two opposite corners give
    the box of all eight. *)
Definition setFromObject (o : Object3D) : Box3 :=
  if isEmpty (objBounds o) then makeEmpty
  else
    let lo := toParent o (bmin (objBounds o)) in
    let hi := toParent o (bmax (objBounds o)) in
    box3 (vmin lo hi) (vmax lo hi).

(** Rows of a rotation matrix. *)
Record Matrix3 : Type := matrix3 {
  m11 : num; m12 : num; m13 : num;
  m21 : num; m22 : num; m23 : num;
  m31 : num; m32 : num; m33 : num
}.

Definition identityMatrix : Matrix3 :=
  matrix3 (Fin 1) (Fin 0) (Fin 0)
          (Fin 0) (Fin 1) (Fin 0)
          (Fin 0) (Fin 0) (Fin 1).

(** Modelled from the spec: the rotation [Rotate(radians, order X,Y,Z)] of
    section 4.3, which three.js builds in [makeRotationFromEuler]; three.js
    itself is not part of the repository. *)
Definition makeRotationFromEuler (euler : Vector3) : Matrix3 :=
  let a := jscos (vx euler) in let b := jssin (vx euler) in
  let c := jscos (vy euler) in let d := jssin (vy euler) in
  let e := jscos (vz euler) in let f := jssin (vz euler) in
  let ae := a * e in let af := a * f in
  let be := b * e in let bf := b * f in
  matrix3 (c * e)        (- c * f)      d
          (af + be * d)  (ae - bf * d)  (- b * c)
          (bf - ae * d)  (be + af * d)  (a * c).

Definition applyMatrix3 (m : Matrix3) (v : Vector3) : Vector3 :=
  vec3 (m11 m * vx v + m12 m * vy v + m13 m * vz v)
       (m21 m * vx v + m22 m * vy v + m23 m * vz v)
       (m31 m * vx v + m32 m * vy v + m33 m * vz v).

(** The props of a [<group>]: position, scale and Euler rotation in
    radians. *)
Record Group : Type := group {
  groupPosition : Vector3;
  groupScale : Vector3;
  groupRotation : Vector3
}.

(** Modelled from the spec: the final transform
    [Translate(position) o Rotate(rotation) o Scale(scale)] that three.js
    applies to the children of a group, as a map on points. *)
Definition localToWorld (g : Group) (v : Vector3) : Vector3 :=
  addVectors (groupPosition g)
    (applyMatrix3 (makeRotationFromEuler (groupRotation g))
       (multiply (groupScale g) v)).

(** [MathUtils.clamp(value, min, max)] *)
Definition clamp (value lo hi : num) : num := max lo (min hi value).

(** The class [Spherical]: radius, polar angle [phi] from the y axis and
    azimuth [theta] about it. *)
Record Spherical : Type := spherical {
  radius : num;
  phi : num;
  theta : num
}.

(** [Spherical.setFromVector3] *)
Definition setFromVector3 (v : Vector3) : Spherical :=
  let r := jssqrt (vx v * vx v + vy v * vy v + vz v * vz v) in
  if isZero r then spherical r (Fin 0) (Fin 0)
  else
    spherical r (jsacos (clamp (vy v / r) (Fin (-1)) (Fin 1)))
              (jsatan2 (vx v) (vz v)).

(** [Spherical.makeSafe]: [phi] is kept between [EPS] and [PI - EPS]. *)
Definition EPS : num := Fin (1 / 1000000).

Definition makeSafe (s : Spherical) : Spherical :=
  spherical (radius s) (max EPS (min (Math_PI - EPS) (phi s))) (theta s).

(** [Vector3.setFromSpherical] *)
Definition setFromSpherical (s : Spherical) : Vector3 :=
  let sinPhiRadius := jssin (phi s) * radius s in
  vec3 (sinPhiRadius * jssin (theta s))
       (jscos (phi s) * radius s)
       (sinPhiRadius * jscos (theta s)).

(** [a.distanceToSquared(b)] *)
Definition distanceToSquared (a b : Vector3) : num :=
  let dx := vx a - vx b in
  let dy := vy a - vy b in
  let dz := vz a - vz b in
  dx * dx + dy * dy + dz * dz.

End Three.

Import Three.

(** ** ModelViewer.tsx: the [Model] component

    The file holds two snapshots of the viewer; the embedding follows the
    one with rotation, stored offsets and the camera controller. *)

Module ModelViewer.

Local Open Scope string_scope.
Local Open Scope js_scope.

(** A value that is thrown or that a promise is rejected with:
    [error instanceof Error] holds for [ErrorObj] only. *)
Inductive Thrown : Type :=
| ErrorObj (message : string)
| NonError.

(** The argument of a loader's [onError] callback; [error.message] may be
    undefined. *)
Record LoaderError : Type := loaderError { errMessage : option string }.

(** The scene a loader resolves with, as the glTF loader builds it: a
    fresh root group, with identity position and scale, around geometry
    with the given bounds.  [normalize] below takes any root, also one
    with a position and a scale of its own. *)
Record RawNode : Type := rawNode { rawBounds : Box3 }.

Definition rawObject (n : RawNode) : Object3D :=
  object3D (vec3 (Fin 0) (Fin 0) (Fin 0)) (vec3 (Fin 1) (Fin 1) (Fin 1))
           (rawBounds n).

Inductive GltfOutcome : Type :=
| GltfResolved (scene : RawNode)
| GltfRejected (error : Thrown).

Inductive FbxOutcome : Type :=
| FbxResolved (model : RawNode)
| FbxOnError (error : LoaderError)
| FbxThrew (error : Thrown).

(** What [GLTFLoader.load] and [FBXLoader.load] do with a url. *)
Record Loaders : Type := loaders {
  gltfLoad : string -> GltfOutcome;
  fbxLoad : string -> FbxOutcome
}.

(** The result of a [try] block. *)
Inductive Completion (A : Type) : Type :=
| Returned (a : A)
| Threw (e : Thrown).

Arguments Returned {A} a.
Arguments Threw {A} e.

Definition versionNotSupported : string := "version not supported".

Definition fbxVersionMessage : string :=
  "FBX file version not supported. Please try a different FBX file or convert to glTF format.".

Definition fbxFailedPrefix : string := "FBX loading failed: ".

Definition ifcDisabledMessage : string :=
  "IFC support is temporarily disabled. Please use glTF or FBX files.".

(** [error.message || 'Unknown error'] *)
Definition messageOrUnknown (m : option string) : string :=
  match m with
  | Some s => if truthy s then s else "Unknown error"
  | None => "Unknown error"
  end.

(** The [onError] callback of [fbxLoader.load]: the error the promise is
    rejected with. *)
Definition fbxOnError (error : LoaderError) : Thrown :=
  match errMessage error with
  | Some m =>
      if truthy m && includes m versionNotSupported
      then ErrorObj fbxVersionMessage
      else ErrorObj (fbxFailedPrefix ++ messageOrUnknown (Some m))
  | None => ErrorObj (fbxFailedPrefix ++ messageOrUnknown None)
  end.

(** The [catch] around the FBX promise: the error that is thrown again. *)
Definition fbxCatch (error : Thrown) : Thrown :=
  match error with
  | ErrorObj m =>
      if includes m versionNotSupported
      then ErrorObj fbxVersionMessage
      else ErrorObj (fbxFailedPrefix ++ m)
  | NonError => ErrorObj (fbxFailedPrefix ++ "Unknown error")
  end.

(** The [case 'fbx'] branch. *)
Definition loadFbx (o : FbxOutcome) : Completion RawNode :=
  match o with
  | FbxResolved model => Returned model
  | FbxOnError error => Threw (fbxCatch (fbxOnError error))
  | FbxThrew error => Threw (fbxCatch error)
  end.

(** The [switch (format.toLowerCase())] of [loadModel]. *)
Definition loadByFormat (env : Loaders) (url format : string)
  : Completion RawNode :=
  let f := toLowerCase format in
  if (f =? "gltf")%string || (f =? "glb")%string then
    match gltfLoad env url with
    | GltfResolved scene => Returned scene
    | GltfRejected error => Threw error
    end
  else if (f =? "fbx")%string then loadFbx (fbxLoad env url)
  else if (f =? "ifc")%string then Threw (ErrorObj ifcDisabledMessage)
  else Threw (ErrorObj ("Unsupported format: " ++ format)).

(** The state cells of [Model]. *)
Record ModelState : Type := modelState {
  model : option Object3D;
  originalBottomY : num;
  originalLeftX : num;
  originalFrontZ : num
}.

Definition initialModelState : ModelState :=
  modelState None (Fin 0) (Fin 0) (Fin 0).

(** [maxDim]: the largest extent of the bounding box of an object. *)
Definition maxDimOf (o : Object3D) : num :=
  let size := getSize (setFromObject o) in
  max3 (vx size) (vy size) (vz size).

(** The uniform scale [2 / maxDim]. *)
Definition uniformScale (o : Object3D) : num := Fin 2 / maxDimOf o.

(** The normalisation steps of [loadModel], from "Scale the model first"
    to the four state updates. *)
Definition normalize (loadedModel : Object3D) : ModelState :=
  let scale := uniformScale loadedModel in
  let loadedModel := withScale loadedModel (setScalar scale) in
  let scaledBox := setFromObject loadedModel in
  let scaledCenter := getCenter scaledBox in
  let loadedModel :=
    withPosition loadedModel
      (vec3 (- vx scaledCenter)
            (- vy (bmin scaledBox) - Fin 1)
            (- vz scaledCenter)) in
  modelState (Some loadedModel)
             (- vy (bmin scaledBox))
             (- vx (bmin scaledBox))
             (- vz (bmin scaledBox)).

(** [loadModel]: the new state of the component and what [console.error]
    received, if anything.  A failure leaves the state as it was. *)
Definition loadModel (env : Loaders) (url format : string) (st : ModelState)
  : ModelState * option Thrown :=
  match loadByFormat env url format with
  | Returned loaded => (normalize (rawObject loaded), None)
  | Threw error => (st, Some error)
  end.

(** A mounted [Model]: its state cells, the values of the dependencies
    [url] and [format] at the last run of the effect, how often the effect
    has run and what it has logged. *)
Record Mounted : Type := mounted {
  cells : ModelState;
  deps : string * string;
  effectRuns : nat;
  logged : list Thrown
}.

(** One run of the effect: [loadModel()] with the props of the render. *)
Definition runEffect (env : Loaders) (url format : string) (m : Mounted)
  : Mounted :=
  let (st, error) := loadModel env url format (cells m) in
  mounted st (url, format) (S (effectRuns m))
          (match error with
           | Some e => logged m ++ [e]
           | None => logged m
           end).

(** The first render of a [Model]: the effect runs. *)
Definition mount (env : Loaders) (url format : string) : Mounted :=
  runEffect env url format (mounted initialModelState (url, format) 0 []).

(** A later render: the effect runs again only when [url] or [format] is
    not what it was at its last run, as its dependency list [[url, format]]
    says. *)
Definition rerender (env : Loaders) (url format : string) (m : Mounted)
  : Mounted :=
  if (fst (deps m) =? url)%string && (snd (deps m) =? format)%string then m
  else runEffect env url format m.

(** The props of [Model]. *)
Record ModelProps : Type := modelProps {
  propPosition : Vector3;
  propScale : Vector3;
  propRotation : Vector3
}.

Definition adjustedPosition (st : ModelState) (position scale : Vector3)
  : Vector3 :=
  vec3 (vx position - originalLeftX st * (vx scale - Fin 1))
       (vy position - originalBottomY st * (vy scale - Fin 1))
       (vz position - originalFrontZ st * (vz scale - Fin 1)).

(** [rotation.map(r => r * Math.PI / 180)] *)
Definition toRadians (rotation : Vector3) : Vector3 :=
  vec3 (vx rotation * Math_PI / Fin 180)
       (vy rotation * Math_PI / Fin 180)
       (vz rotation * Math_PI / Fin 180).

(** What [Model] renders: nothing while [model] is null, otherwise the
    group around the model. *)
Definition render (st : ModelState) (p : ModelProps) : option Group :=
  match model st with
  | None => None
  | Some _ =>
      Some (group (adjustedPosition st (propPosition p) (propScale p))
                  (propScale p)
                  (toRadians (propRotation p)))
  end.

(** The anchor of the spec: the point with local coordinates
    [(leftX, bottomY, frontZ)]. *)
Definition anchorPoint (st : ModelState) : Vector3 :=
  vec3 (originalLeftX st) (originalBottomY st) (originalFrontZ st).

End ModelViewer.

(** ** ModelViewer.tsx: the [Model] component of the other snapshot

    The snapshot without rotation centres the model on its box and keeps no
    offsets; its group takes position and scale as they are. *)

Module EarlierModelViewer.

Local Open Scope js_scope.

(** The steps "Center and scale the model" of [loadModel]. *)
Definition normalize (loadedModel : Object3D) : Object3D :=
  let box := setFromObject loadedModel in
  let center := getCenter box in
  let scale := ModelViewer.uniformScale loadedModel in
  let loadedModel :=
    withPosition loadedModel (subVectors (objPosition loadedModel) center) in
  let loadedModel := withScale loadedModel (setScalar scale) in
  withPosition loadedModel (multiplyScalar (objPosition loadedModel) scale).

(** [loadModel]: the new value of the state cell [model] and what
    [console.error] received, if anything. *)
Definition loadModel (env : ModelViewer.Loaders) (url format : string)
  (st : option Object3D) : option Object3D * option ModelViewer.Thrown :=
  match ModelViewer.loadByFormat env url format with
  | ModelViewer.Returned loaded =>
      (Some (normalize (ModelViewer.rawObject loaded)), None)
  | ModelViewer.Threw error => (st, Some error)
  end.

(** What [Model] renders; a group without a rotation prop is not turned. *)
Definition render (model : option Object3D) (position scale : Vector3)
  : option Group :=
  match model with
  | None => None
  | Some _ => Some (group position scale (vec3 (Fin 0) (Fin 0) (Fin 0)))
  end.

End EarlierModelViewer.

(** ** ModelViewer.tsx: the [CameraController] component *)

Module CameraController.

Local Open Scope string_scope.
Local Open Scope js_scope.

Record Camera : Type := camera { cameraPosition : Vector3 }.

(** The orbit controls, as far as the controller touches them: their
    target.  The controls belong to the controls library. *)
Record OrbitControls : Type := orbitControls { target : Vector3 }.

Definition setTarget (c : OrbitControls) (t : Vector3) : OrbitControls :=
  orbitControls t.

(** The distance limits that [CameraController] passes to
    [<OrbitControls>], and the limits of the polar angle, which it leaves
    at their defaults. *)
Definition minDistance : num := Fin 1.
Definition maxDistance : num := Fin 50.
Definition minPolarAngle : num := Fin 0.
Definition maxPolarAngle : num := Math_PI.

(** [controls.update()] of the controls library, for controls at rest (no
    rotation, pan or zoom of the user is pending, the azimuth is not
    limited and the camera has the y axis as its up direction): the offset
    of the camera from the target is taken to spherical coordinates, the
    polar angle is kept within its limits and off the poles, the radius
    within the distance limits, and the camera is put back at the target
    plus the offset with these coordinates.  The target stays. *)
Definition update (cam : Camera) (controls : OrbitControls)
  : Camera * OrbitControls :=
  let offset := subVectors (cameraPosition cam) (target controls) in
  let s := setFromVector3 offset in
  let s :=
    spherical (radius s) (max minPolarAngle (min maxPolarAngle (phi s)))
              (theta s) in
  let s := makeSafe s in
  let s :=
    spherical (max minDistance (min maxDistance (radius s))) (phi s)
              (theta s) in
  (camera (addVectors (target controls) (setFromSpherical s)), controls).

(** What the handler closes over: the camera and [controlsRef.current],
    either of which may be missing. *)
Record Rig : Type := rig {
  rigCamera : option Camera;
  controlsRef : option OrbitControls
}.

Definition distance : num := Fin 8.

Definition origin : Vector3 := vec3 (Fin 0) (Fin 0) (Fin 0).

(** The [switch (view)] of the handler. *)
Definition switchView (view : string) (cam : Camera) (controls : OrbitControls)
  : Camera * OrbitControls :=
  if (view =? "front")%string then
    (camera (vec3 (Fin 0) (Fin 0) distance), setTarget controls origin)
  else if (view =? "back")%string then
    (camera (vec3 (Fin 0) (Fin 0) (- distance)), setTarget controls origin)
  else if (view =? "left")%string then
    (camera (vec3 (- distance) (Fin 0) (Fin 0)), setTarget controls origin)
  else if (view =? "right")%string then
    (camera (vec3 distance (Fin 0) (Fin 0)), setTarget controls origin)
  else if (view =? "top")%string then
    (camera (vec3 (Fin 0) distance (Fin 0)), setTarget controls origin)
  else if (view =? "bottom")%string then
    (camera (vec3 (Fin 0) (- distance) (Fin 0)), setTarget controls origin)
  else (cam, controls).

Definition handleCameraViewChange (view : string) (r : Rig) : Rig :=
  match rigCamera r, controlsRef r with
  | Some cam, Some controls =>
      let (cam, controls) := switchView view cam controls in
      let (cam, controls) := update cam controls in
      rig (Some cam) (Some controls)
  | _, _ => r
  end.

(** The six view tags of the toolbar. *)
Definition viewTags : list string :=
  ["front"; "back"; "left"; "right"; "top"; "bottom"].

(** The unit vector of a canonical view, as the spec names it
    ([axisUnitVector(view)]); the origin for any other tag. *)
Definition axisUnitVector (view : string) : Vector3 :=
  if (view =? "front")%string then vec3 (Fin 0) (Fin 0) (Fin 1)
  else if (view =? "back")%string then vec3 (Fin 0) (Fin 0) (Fin (-1))
  else if (view =? "left")%string then vec3 (Fin (-1)) (Fin 0) (Fin 0)
  else if (view =? "right")%string then vec3 (Fin 1) (Fin 0) (Fin 0)
  else if (view =? "top")%string then vec3 (Fin 0) (Fin 1) (Fin 0)
  else if (view =? "bottom")%string then vec3 (Fin 0) (Fin (-1)) (Fin 0)
  else origin.

(** A [CustomEvent] with a [detail.view], and the event name the
    controller listens to on [window]. *)
Record CustomEvent : Type := customEvent {
  eventType : string;
  detailView : string
}.

Definition listenedEvent : string := "camera-view-change".

(** [window.dispatchEvent(e)] while the listener of the controller is
    registered: the listener runs for events of its name only. *)
Definition dispatchEvent (e : CustomEvent) (r : Rig) : Rig :=
  if (eventType e =? listenedEvent)%string
  then handleCameraViewChange (detailView e) r
  else r.

End CameraController.

(** ** The studio layout: the list of placed models and its handlers

    Of the two snapshots of the layout the embedding follows the one with
    rotation; the other one has the same [handleImport],
    [setSelectedPosition] and [setSelectedScale] on records without a
    rotation. *)

Module StudioLayout.

Local Open Scope string_scope.

Inductive ImportFormat : Type := gltf | glb.

Definition formatString (f : ImportFormat) : string :=
  match f with gltf => "gltf" | glb => "glb" end.

Record PlacedModel : Type := placedModel {
  id : string;
  name : string;
  url : string;
  format : ImportFormat;
  position : Vector3;
  scale : Vector3;
  rotation : Vector3
}.

(** The two state cells [models] and [selectedId]. *)
Record Studio : Type := studio {
  models : list PlacedModel;
  selectedId : option string
}.

Record File : Type := file { fileName : string }.

Definition importAlert : string := "Only glTF or GLB supported for import.".

(** [handleImport]: [f] is [e.target.files?.[0]], [objectUrl] the result of
    [URL.createObjectURL(file)] and [newId] the generated id.  Returns the
    new state and the text passed to [alert], if any. *)
Definition handleImport (f : option File) (objectUrl newId : string)
  (st : Studio) : Studio * option string :=
  match f with
  | None => (st, None)
  | Some fl =>
      let lower := toLowerCase (fileName fl) in
      if negb (endsWith lower ".gltf") && negb (endsWith lower ".glb") then
        (st, Some importAlert)
      else
        let fmt := if endsWith lower ".glb" then glb else gltf in
        let item :=
          placedModel newId (fileName fl) objectUrl fmt
            (vec3 (Fin 0) (Fin 0) (Fin 0))
            (vec3 (Fin 1) (Fin 1) (Fin 1))
            (vec3 (Fin 0) (Fin 0) (Fin 0)) in
        (studio (models st ++ [item]) (Some newId), None)
  end.

(** [m.id === selectedId], where [selectedId] may be null. *)
Definition isSelected (sel : option string) (m : PlacedModel) : bool :=
  match sel with
  | Some s => (id m =? s)%string
  | None => false
  end.

(** [v.map((v, i) => i === axis ? value : v)] on an array of three. *)
Definition setAxis (axis : nat) (value : num) (v : Vector3) : Vector3 :=
  vec3 (if (0 =? axis)%nat then value else vx v)
       (if (1 =? axis)%nat then value else vy v)
       (if (2 =? axis)%nat then value else vz v).

Definition withPosition (m : PlacedModel) (p : Vector3) : PlacedModel :=
  placedModel (id m) (name m) (url m) (format m) p (scale m) (rotation m).

Definition withScale (m : PlacedModel) (s : Vector3) : PlacedModel :=
  placedModel (id m) (name m) (url m) (format m) (position m) s (rotation m).

Definition withRotation (m : PlacedModel) (r : Vector3) : PlacedModel :=
  placedModel (id m) (name m) (url m) (format m) (position m) (scale m) r.

Definition setSelectedPosition (axis : nat) (value : num) (st : Studio)
  : Studio :=
  studio
    (map (fun m => if isSelected (selectedId st) m
                   then withPosition m (setAxis axis value (position m))
                   else m)
         (models st))
    (selectedId st).

Definition setSelectedScale (axis : nat) (value : num) (st : Studio)
  : Studio :=
  studio
    (map (fun m => if isSelected (selectedId st) m
                   then withScale m (setAxis axis value (scale m))
                   else m)
         (models st))
    (selectedId st).

Definition setSelectedRotation (axis : nat) (value : num) (st : Studio)
  : Studio :=
  studio
    (map (fun m => if isSelected (selectedId st) m
                   then withRotation m (setAxis axis value (rotation m))
                   else m)
         (models st))
    (selectedId st).

(** The three editable fields, and an edit of one of them. *)
Inductive Field : Type := Position | Scale | Rotation.

Definition field (f : Field) (m : PlacedModel) : Vector3 :=
  match f with
  | Position => position m
  | Scale => scale m
  | Rotation => rotation m
  end.

Definition setSelected (f : Field) (axis : nat) (value : num) (st : Studio)
  : Studio :=
  match f with
  | Position => setSelectedPosition axis value st
  | Scale => setSelectedScale axis value st
  | Rotation => setSelectedRotation axis value st
  end.

(** [v[i]] for an array of three. *)
Definition component (i : nat) (v : Vector3) : option num :=
  match i with
  | 0 => Some (vx v)
  | 1 => Some (vy v)
  | 2 => Some (vz v)
  | _ => None
  end.

(** The [Model] that the viewer mounts for a placed model, after its
    [loadModel] effect has run. *)
Definition mountModel (env : ModelViewer.Loaders) (m : PlacedModel)
  : ModelViewer.ModelState * option ModelViewer.Thrown :=
  ModelViewer.loadModel env (url m) (formatString (format m))
    ModelViewer.initialModelState.

(** [models.find(m => m.id === selectedId) || null] *)
Definition selected (st : Studio) : option PlacedModel :=
  find (isSelected (selectedId st)) (models st).

(** The values shown by the sliders: [selected ? selected.position[idx] : 0]
    and the like. *)
Definition positionSlider (idx : nat) (st : Studio) : option num :=
  match selected st with
  | Some m => component idx (position m)
  | None => Some (Fin 0)
  end.

Definition scaleSlider (idx : nat) (st : Studio) : option num :=
  match selected st with
  | Some m => component idx (scale m)
  | None => Some (Fin 1)
  end.

Definition rotationSlider (idx : nat) (st : Studio) : option num :=
  match selected st with
  | Some m => component idx (rotation m)
  | None => Some (Fin 0)
  end.

Definition slider (f : Field) (idx : nat) (st : Studio) : option num :=
  match f with
  | Position => positionSlider idx st
  | Scale => scaleSlider idx st
  | Rotation => rotationSlider idx st
  end.

(** The click on an item of the list: [setSelectedId(it.id)]. *)
Definition selectModel (it : PlacedModel) (st : Studio) : Studio :=
  studio (models st) (Some (id it)).

(** [handleCameraView]: the event that is dispatched on [window]. *)
Definition handleCameraView (view : string) : CameraController.CustomEvent :=
  CameraController.customEvent "camera-view-change" view.

(** The tags of the six view buttons of the toolbar. *)
Definition toolbarViews : list string :=
  ["front"; "back"; "left"; "right"; "top"; "bottom"].

(** The props that the viewer passes on to [Model]. *)
Definition modelPropsOf (m : PlacedModel) : ModelViewer.ModelProps :=
  ModelViewer.modelProps (position m) (scale m) (rotation m).

(** What the viewer shows for a placed model once its load has ended. *)
Definition viewOf (env : ModelViewer.Loaders) (m : PlacedModel)
  : option Group :=
  ModelViewer.render (fst (mountModel env m)) (modelPropsOf m).

(** The [Model]s that the viewer has mounted, each under its [key]. *)
Fixpoint lookup (key : string) (ms : list (string * ModelViewer.Mounted))
  : option ModelViewer.Mounted :=
  match ms with
  | [] => None
  | (k, inst) :: rest => if (k =? key)%string then Some inst else lookup key rest
  end.

(** A render of the viewer, [models.map(m => <Model key={m.id} ... />)]: a
    model whose key is mounted already is rendered again, any other one is
    mounted, and what is not in the list any more is gone. *)
Definition renderModels (env : ModelViewer.Loaders)
  (shown : list (string * ModelViewer.Mounted)) (ms : list PlacedModel)
  : list (string * ModelViewer.Mounted) :=
  map (fun m =>
         (id m,
          match lookup (id m) shown with
          | Some inst =>
              ModelViewer.rerender env (url m) (formatString (format m)) inst
          | None => ModelViewer.mount env (url m) (formatString (format m))
          end))
      ms.

(** What the user does in the studio, and the state after it. *)
Inductive Event : Type :=
| Import (f : option File) (objectUrl newId : string)
| Select (k : nat)
| Edit (f : Field) (axis : nat) (value : num).

Definition step (e : Event) (st : Studio) : Studio :=
  match e with
  | Import f objectUrl newId => fst (handleImport f objectUrl newId st)
  | Select k =>
      match nth_error (models st) k with
      | Some it => selectModel it st
      | None => st
      end
  | Edit f axis value => setSelected f axis value st
  end.

Fixpoint run (es : list Event) (st : Studio) : Studio :=
  match es with
  | [] => st
  | e :: es' => run es' (step e st)
  end.

End StudioLayout.

Import ModelViewer CameraController StudioLayout.

Open Scope string_scope.

(** ** Vocabulary of the properties *)

Definition zeros : Vector3 := vec3 (Fin 0) (Fin 0) (Fin 0).
Definition ones : Vector3 := vec3 (Fin 1) (Fin 1) (Fin 1).
Definition twos : Vector3 := vec3 (Fin 2) (Fin 2) (Fin 2).

Definition finVec (x y z : R) : Vector3 := vec3 (Fin x) (Fin y) (Fin z).

Definition finBox (lx ly lz hx hy hz : R) : Box3 :=
  box3 (finVec lx ly lz) (finVec hx hy hz).

(** A box with finite corners, lower corner first. *)
Definition properBox (b : Box3) : Prop :=
  exists lx ly lz hx hy hz,
    b = finBox lx ly lz hx hy hz /\ (lx <= hx /\ ly <= hy /\ lz <= hz)%R.

Definition largest (a b c : R) : R := Rmax (Rmax a b) c.

(** The three stored offsets are finite numbers. *)
Definition finiteMetrics (st : ModelState) : bool :=
  isFinite (originalLeftX st) && isFinite (originalBottomY st) &&
  isFinite (originalFrontZ st).

(** The anchor in world space: the image of [anchorPoint] under the
    transform of the rendered group. *)
Definition anchorInWorld (st : ModelState) (p : ModelProps) : option Vector3 :=
  option_map (fun g => localToWorld g (anchorPoint st)) (render st p).

(** [maxDim] is zero or not finite. *)
Definition degenerate (maxDim : num) : Prop :=
  maxDim = Fin 0 \/ isFinite maxDim = false.

(** The error text the FBX parser gave, if any. *)
Definition parserText (o : FbxOutcome) : option string :=
  match o with
  | FbxResolved _ => None
  | FbxOnError error => errMessage error
  | FbxThrew (ErrorObj m) => Some m
  | FbxThrew NonError => None
  end.

Definition mentionsVersion (text : option string) : bool :=
  match text with
  | Some m => includes m versionNotSupported
  | None => false
  end.

Definition fbxFailed (o : FbxOutcome) : bool :=
  match o with FbxResolved _ => false | _ => true end.

(** A message of the generic kind: it starts with the generic prefix, is not
    the version message and does not mention the version. *)
Definition genericFailure (msg : string) : Prop :=
  String.prefix fbxFailedPrefix msg = true /\
  msg <> fbxVersionMessage /\
  includes msg versionNotSupported = false.

Fixpoint lastChar (s : string) : option ascii :=
  match s with
  | EmptyString => None
  | String c EmptyString => Some c
  | String _ s' => lastChar s'
  end.

(** The extension test of [handleImport], on the lower-cased name. *)
Definition accepted (fl : File) : bool :=
  endsWith (toLowerCase (fileName fl)) ".gltf" ||
  endsWith (toLowerCase (fileName fl)) ".glb".

(** One placed model after an edit of field [f]. *)
Definition editOf (f : Field) (axis : nat) (value : num) (m : PlacedModel)
  : PlacedModel :=
  match f with
  | Position => StudioLayout.withPosition m (setAxis axis value (position m))
  | Scale => StudioLayout.withScale m (setAxis axis value (scale m))
  | Rotation => withRotation m (setAxis axis value (rotation m))
  end.

(** The camera position and the orbit target of a rig. *)
Definition pose (r : Rig) : option Vector3 * option Vector3 :=
  (option_map cameraPosition (rigCamera r), option_map target (controlsRef r)).

(** ** Sample inputs *)

(** A cube of side 2 around the origin, a scene without geometry and a
    scene that is a single point at [(1,2,3)]. *)
Definition cube : RawNode := rawNode (finBox (-1) (-1) (-1) 1 1 1).
Definition emptyScene : RawNode := rawNode makeEmpty.
Definition pointScene : RawNode := rawNode (finBox 1 2 3 1 2 3).

(** The state of [Model] after the cube has been loaded. *)
Definition cubeState : ModelState :=
  modelState
    (Some (object3D (finVec 0 0 0) (setScalar (Fin 1))
                    (finBox (-1) (-1) (-1) 1 1 1)))
    (Fin 1) (Fin 1) (Fin 1).



(** Half a turn about the x axis, in degrees. *)
Definition halfTurnX : Vector3 := vec3 (Fin 180) (Fin 0) (Fin 0).

Definition emptyStudio : Studio := studio [] None.

(** Loaders that fail on every url, that resolve with the single point or
    with the empty scene, and that report an unsupported FBX version. *)
Definition brokenLoaders : Loaders :=
  loaders (fun _ => GltfRejected (ErrorObj "Unexpected end of data"))
          (fun _ => FbxThrew NonError).

Definition pointSceneLoaders : Loaders :=
  loaders (fun _ => GltfResolved pointScene) (fun _ => FbxThrew NonError).

Definition emptySceneLoaders : Loaders :=
  loaders (fun _ => GltfResolved emptyScene) (fun _ => FbxThrew NonError).

Definition oldFbxLoaders : Loaders :=
  loaders (fun _ => GltfRejected NonError)
          (fun _ => FbxOnError (loaderError (Some
             "THREE.FBXLoader: FBX version not supported, FileVersion: 6100"))).

(** The camera where the canvas puts it, with the target at the origin;
    a camera on the y axis above the origin; one at distance 100 in front
    of it. *)
Definition restingRig : Rig :=
  rig (Some (camera (finVec 5 5 5))) (Some (orbitControls zeros)).



(** Two placed models, the second one selected. *)
Definition twoModels : Studio :=
  studio [placedModel "a" "chair.glb" "blob:a" glb zeros ones zeros;
          placedModel "b" "desk.gltf" "blob:b" gltf zeros ones zeros]
         (Some "b").

(** ** Vocabulary of the further properties *)

(** The same scene in another unit: every coordinate times [u]. *)
Definition inUnit (u : R) (n : RawNode) : RawNode :=
  rawNode (box3 (multiplyScalar (bmin (rawBounds n)) (Fin u))
                (multiplyScalar (bmax (rawBounds n)) (Fin u))).

(** The lower-cased format is one the viewer has a loader for. *)
Definition loadable (format : string) : bool :=
  (toLowerCase format =? "gltf") || (toLowerCase format =? "glb") ||
  (toLowerCase format =? "fbx").

(** The handler run on a sequence of view tags, first tag first. *)
Fixpoint handleAll (views : list string) (r : Rig) : Rig :=
  match views with
  | [] => r
  | view :: rest => handleAll rest (handleCameraViewChange view r)
  end.

Definition isViewTag (view : string) : bool :=
  existsb (String.eqb view) viewTags.

(** The last of the six tags in a sequence, if there is one. *)
Definition lastViewTag (views : list string) : option string :=
  find isViewTag (rev views).

(** The smallest polar angle the controls allow. *)
Definition polarEPS : R := 1 / 1000000.

(** Where the camera is after the snap to a view: on the axis of the
    view for the four views from the side, and off the y axis by the
    smallest polar angle for the views from above and from below. *)
Definition snappedPosition (view : string) : Vector3 :=
  if (view =? "top")%string then
    finVec 0 (8 * cos polarEPS) (8 * sin polarEPS)
  else if (view =? "bottom")%string then
    finVec 0 (- (8 * cos polarEPS)) (8 * sin polarEPS)
  else multiplyScalar (axisUnitVector view) distance.

(** The polar angle and the radius after the limits of the controls have
    been applied. *)
Definition safePhi (a : R) : R :=
  Rmax polarEPS (Rmin (PI - polarEPS) (Rmax 0 (Rmin PI a))).

Definition safeRadius (r : R) : R := Rmax 1 (Rmin 50 r).

Definition snappedPose (view : string) : option Vector3 * option Vector3 :=
  (Some (snappedPosition view), Some origin).

(** The camera is where [update()] leaves it: camera and target are
    finite, the distance [r] between them lies within the distance limits
    and the polar angle of the offset [(x, y, z)] lies between the smallest
    polar angle and its mirror image. *)
Definition cameraAtRest (cam : Camera) (controls : OrbitControls) : Prop :=
  exists tx ty tz x y z r,
    target controls = finVec tx ty tz /\
    cameraPosition cam = finVec (tx + x) (ty + y) (tz + z) /\
    (0 < r /\ x * x + y * y + z * z = r * r /\
     1 <= r <= 50 /\
     polarEPS <= acos (y / r) <= PI - polarEPS)%R.

Definition atRest (r : Rig) : Prop :=
  match rigCamera r, controlsRef r with
  | Some cam, Some controls => cameraAtRest cam controls
  | _, _ => True
  end.

(** Every import of the sequence comes with an id that no placed model has
    at that moment. *)
Fixpoint freshImports (es : list Event) (st : Studio) : Prop :=
  match es with
  | [] => True
  | e :: es' =>
      match e with
      | Import _ _ newId => ~ In newId (map id (models st))
      | _ => True
      end /\ freshImports es' (step e st)
  end.

(** A scene two units wide, one high and four deep that stands on the
    ground with one corner at the origin. *)
Definition crate : RawNode := rawNode (finBox 0 0 0 2 1 4).

(** Loaders that resolve with the crate. *)
Definition crateLoaders : Loaders :=
  loaders (fun _ => GltfResolved crate) (fun _ => FbxResolved crate).

(** A session: two imports, a click on the first item and two edits. *)
Definition session : list Event :=
  [Import (Some (file "chair.glb")) "blob:1" "id-1";
   Import (Some (file "desk.gltf")) "blob:2" "id-2";
   Select 0;
   Edit Position 0 (Fin 2);
   Edit Scale 1 (Fin 3)].

(** The ids of the placed models, in the order of the list. *)
Definition ids (st : Studio) : list string := map id (models st).

(** The selection is empty with an empty list, or is the id of a placed
    model. *)
Definition selectionValid (st : Studio) : Prop :=
  (models st = [] /\ selectedId st = None) \/
  (exists m, In m (models st) /\ selectedId st = Some (id m)).

(** What the viewer mounts a placed model by and loads it from. *)
Definition source (m : PlacedModel) : string * (string * ImportFormat) :=
  (id m, (url m, format m)).

(** A sequence of clicks and edits, without an import. *)
Fixpoint noImport (es : list Event) : bool :=
  match es with
  | [] => true
  | Import _ _ _ :: _ => false
  | _ :: es' => noImport es'
  end.

(** A squared distance that lies between the squares of the two distance
    limits of the controls. *)
Definition withinOrbitLimits (d2 : num) : bool :=
  negb (lt d2 (mul minDistance minDistance)) &&
  negb (lt (mul maxDistance maxDistance) d2).

(** Loaders that agree with [crateLoaders] on glTF and fail on FBX. *)
Definition crateGltfLoaders : Loaders :=
  loaders (fun _ => GltfResolved crate) (fun _ => FbxThrew NonError).

(** A cube of side 2 with its lower corner at [(1,1,1)]. *)
Definition cornerCube : RawNode := rawNode (finBox 1 1 1 3 3 3).

(** A parser error that does not mention the version. *)
Definition truncatedFile : LoaderError :=
  loaderError (Some "Unexpected end of file").

(** ** Arithmetic on finite numbers *)

Local Open Scope R_scope.

Ltac decide_reals :=
  repeat match goal with
  | |- context [Req_EM_T ?a ?b] => destruct (Req_EM_T a b); try lra
  | |- context [Rlt_dec ?a ?b] => destruct (Rlt_dec a b); try lra
  | H : context [Req_EM_T ?a ?b] |- _ => destruct (Req_EM_T a b); try lra
  | H : context [Rlt_dec ?a ?b] |- _ => destruct (Rlt_dec a b); try lra
  end.

Lemma Fin_eq a b : a = b -> Fin a = Fin b.
Proof. intros ->; reflexivity. Qed.

Lemma isFinite_inv x : isFinite x = true -> exists r, x = Fin r.
Proof. destruct x; simpl; intros H; try discriminate. eauto. Qed.

Lemma finiteVector_inv v :
  finiteVector v = true -> exists x y z, v = finVec x y z.
Proof.
  destruct v as [x y z]; unfold finiteVector; simpl.
  intros H. apply andb_prop in H as [H Hz]. apply andb_prop in H as [Hx Hy].
  apply isFinite_inv in Hx as [a ->], Hy as [b ->], Hz as [c ->].
  exists a, b, c. reflexivity.
Qed.

Lemma finiteMetrics_inv st :
  finiteMetrics st = true ->
  exists a b c,
    originalLeftX st = Fin a /\ originalBottomY st = Fin b /\
    originalFrontZ st = Fin c.
Proof.
  unfold finiteMetrics. intros H.
  apply andb_prop in H as [H Hz]. apply andb_prop in H as [Hx Hy].
  apply isFinite_inv in Hx as [a Ha], Hy as [b Hb], Hz as [c Hc].
  exists a, b, c. auto.
Qed.

Lemma sub_fin_zero x r : r = 0 -> sub x (Fin r) = x.
Proof. intros ->. destruct x; simpl; auto. apply Fin_eq. lra. Qed.

Lemma add_fin_eq x a b : a = b -> add x (Fin a) = add x (Fin b).
Proof. intros ->; reflexivity. Qed.

Lemma add_add_fin p a b c :
  a + b = c -> add (add p (Fin a)) (Fin b) = add p (Fin c).
Proof. intros <-. destruct p; simpl; auto. apply Fin_eq; lra. Qed.

Lemma div_fin a b : b <> 0 -> div (Fin a) (Fin b) = Fin (a / b).
Proof.
  intros H. simpl. destruct (Req_EM_T b 0); [contradiction | reflexivity].
Qed.

Lemma div_two_zero : div (Fin 2) (Fin 0) = PosInf.
Proof. simpl. unfold timesInfinity. decide_reals. reflexivity. Qed.

Lemma lt_fin_false a b : b <= a -> lt (Fin a) (Fin b) = false.
Proof. intros H; simpl. destruct (Rlt_dec a b); [lra | reflexivity]. Qed.

Lemma lt_false_fin a b : lt (Fin a) (Fin b) = false -> b <= a.
Proof. simpl. destruct (Rlt_dec a b); [discriminate | lra]. Qed.

Lemma lt_max_min a b : lt (max a b) (min a b) = false.
Proof.
  destruct a as [x| | |], b as [y| | |]; simpl; auto.
  destruct (Rlt_dec (Rmax x y) (Rmin x y)) as [H|]; [|reflexivity].
  exfalso. unfold Rmax, Rmin in H. destruct (Rle_dec x y); lra.
Qed.

Lemma max3_zero : max3 (Fin 0) (Fin 0) (Fin 0) = Fin 0.
Proof.
  unfold max3; simpl. apply Fin_eq. unfold Rmax.
  destruct (Rle_dec 0 0); destruct (Rle_dec 0 0); lra.
Qed.

Lemma max3_fin_inv a b c m :
  max3 a b c = Fin m -> a <> NegInf -> b <> NegInf -> c <> NegInf ->
  exists x y z, a = Fin x /\ b = Fin y /\ c = Fin z.
Proof.
  destruct a, b, c; unfold max3; simpl; intros H Ha Hb Hc;
    try discriminate; try congruence; eauto 10.
Qed.

Lemma largest_scale k a b c :
  0 <= k -> largest (k * a) (k * b) (k * c) = k * largest a b c.
Proof.
  intros Hk. unfold largest. rewrite !RmaxRmult by assumption. reflexivity.
Qed.

(** ** Values that are not finite *)

Lemma add_NaN_r x : add x NaN = NaN.
Proof. destruct x; reflexivity. Qed.

Lemma zero_times_PosInf : mul (Fin 0) PosInf = NaN.
Proof. simpl. unfold timesInfinity. decide_reals. reflexivity. Qed.

(** The extent between two coordinates is finite only when both are, and
    is never [-Infinity]. *)
Lemma span_fin_inv a b d :
  sub (max a b) (min a b) = Fin d -> exists x y, a = Fin x /\ b = Fin y.
Proof. destruct a, b; simpl; intros H; try discriminate; eauto. Qed.

Lemma span_not_NegInf a b : sub (max a b) (min a b) <> NegInf.
Proof. destruct a, b; simpl; discriminate. Qed.

(** ** Bounding boxes *)

Lemma isEmpty_finBox lx ly lz hx hy hz :
  lx <= hx -> ly <= hy -> lz <= hz ->
  isEmpty (finBox lx ly lz hx hy hz) = false.
Proof.
  intros. unfold isEmpty, finBox, finVec; cbn [bmin bmax vx vy vz].
  rewrite !lt_fin_false by assumption. reflexivity.
Qed.

Lemma span_not_empty lo hi : isEmpty (box3 (vmin lo hi) (vmax lo hi)) = false.
Proof.
  unfold isEmpty, vmin, vmax; cbn [bmin bmax vx vy vz].
  rewrite !lt_max_min. reflexivity.
Qed.

Lemma toParent_fin px py pz sx sy sz b x y z :
  toParent (object3D (finVec px py pz) (finVec sx sy sz) b) (finVec x y z) =
  finVec (sx * x + px) (sy * y + py) (sz * z + pz).
Proof.
  unfold toParent, finVec. cbn [objScale objPosition vx vy vz]. simpl.
  destruct (Req_EM_T (0 * x + 0 * y + 0 * z + 1) 0) as [E|_]; [lra|].
  simpl. f_equal; apply Fin_eq; field; lra.
Qed.

(** With an infinite scale every entry of the upper block of the matrix
    off the diagonal is [0 * Infinity], and every transformed coordinate is
    [NaN]. *)
Lemma toParent_infinite_scale p b c :
  toParent (object3D p (setScalar PosInf) b) c = vec3 NaN NaN NaN.
Proof.
  unfold toParent, setScalar. cbn [objScale objPosition vx vy vz].
  rewrite zero_times_PosInf. cbn [mul].
  rewrite ?add_NaN_r. reflexivity.
Qed.

(** A transformed corner of an object with scale [(1,1,1)] is finite only
    when the corner and the position of the object are. *)
Lemma toParent_unit_fin_inv p b c x y z :
  toParent (object3D p ones b) c = finVec x y z ->
  finiteVector p = true /\ finiteVector c = true.
Proof.
  destruct p as [p1 p2 p3], c as [c1 c2 c3].
  unfold toParent, finVec, ones. cbn [objScale objPosition vx vy vz].
  intros H. injection H as Hx Hy Hz.
  assert (Hc : finiteVector (vec3 c1 c2 c3) = true /\ isFinite p1 = true).
  { clear Hy Hz.
    destruct c1, c2, c3, p1; simpl in Hx; unfold timesInfinity in Hx;
      decide_reals; try discriminate; split; reflexivity. }
  destruct Hc as [Hc Hp1].
  apply finiteVector_inv in Hc as (a1 & a2 & a3 & Hc).
  unfold finVec in Hc. injection Hc as -> -> ->.
  assert (Hp2 : isFinite p2 = true).
  { clear Hx Hz. destruct p2; simpl in Hy; unfold timesInfinity in Hy;
      decide_reals; try discriminate; reflexivity. }
  assert (Hp3 : isFinite p3 = true).
  { clear Hx Hy. destruct p3; simpl in Hz; unfold timesInfinity in Hz;
      decide_reals; try discriminate; reflexivity. }
  unfold finiteVector. cbn [vx vy vz]. rewrite Hp1, Hp2, Hp3. split; reflexivity.
Qed.

Lemma setFromObject_finBox px py pz s lx ly lz hx hy hz :
  0 <= s -> lx <= hx -> ly <= hy -> lz <= hz ->
  setFromObject
    (object3D (finVec px py pz) (setScalar (Fin s))
              (finBox lx ly lz hx hy hz)) =
  finBox (s * lx + px) (s * ly + py) (s * lz + pz)
         (s * hx + px) (s * hy + py) (s * hz + pz).
Proof.
  intros Hs Hx Hy Hz. unfold setFromObject. cbn [objBounds].
  rewrite isEmpty_finBox by assumption.
  change (setScalar (Fin s)) with (finVec s s s).
  unfold finBox. cbn [bmin bmax]. rewrite !toParent_fin.
  unfold finVec, vmin, vmax; simpl.
  f_equal; f_equal; apply Fin_eq;
    (apply Rmin_left || apply Rmax_right); nra.
Qed.

Lemma getSize_finBox lx ly lz hx hy hz :
  lx <= hx -> ly <= hy -> lz <= hz ->
  getSize (finBox lx ly lz hx hy hz) = finVec (hx - lx) (hy - ly) (hz - lz).
Proof.
  intros. unfold getSize. rewrite isEmpty_finBox by assumption. reflexivity.
Qed.

Lemma getCenter_finBox lx ly lz hx hy hz :
  lx <= hx -> ly <= hy -> lz <= hz ->
  getCenter (finBox lx ly lz hx hy hz) =
  finVec ((lx + hx) * (1 / 2)) ((ly + hy) * (1 / 2)) ((lz + hz) * (1 / 2)).
Proof.
  intros. unfold getCenter. rewrite isEmpty_finBox by assumption. reflexivity.
Qed.

Lemma maxDimOf_finBox px py pz s lx ly lz hx hy hz :
  0 <= s -> lx <= hx -> ly <= hy -> lz <= hz ->
  maxDimOf
    (object3D (finVec px py pz) (setScalar (Fin s))
              (finBox lx ly lz hx hy hz)) =
  Fin (s * largest (hx - lx) (hy - ly) (hz - lz)).
Proof.
  intros Hs Hx Hy Hz. unfold maxDimOf.
  rewrite setFromObject_finBox by assumption.
  rewrite getSize_finBox by nra.
  unfold finVec, max3; simpl. apply Fin_eq.
  rewrite <- largest_scale by assumption. unfold largest.
  f_equal; [f_equal|]; lra.
Qed.

Lemma maxDimOf_emptyBounds o :
  isEmpty (objBounds o) = true -> maxDimOf o = Fin 0.
Proof.
  intros H. unfold maxDimOf, setFromObject. rewrite H.
  unfold getSize. replace (isEmpty makeEmpty) with true by reflexivity.
  apply max3_zero.
Qed.

(** A positive finite [maxDim] of an object with scale [(1,1,1)] comes
    from a finite position and finite, ordered bounds. *)
Lemma positive_maxDim_unit_root o m :
  objScale o = ones -> maxDimOf o = Fin m -> 0 < m ->
  exists px py pz lx ly lz hx hy hz,
    o = object3D (finVec px py pz) ones (finBox lx ly lz hx hy hz) /\
    lx <= hx /\ ly <= hy /\ lz <= hz.
Proof.
  intros Hs Hm Hpos. destruct o as [p s B]. cbn [objScale] in Hs. subst s.
  destruct (isEmpty B) eqn:Hemp.
  { rewrite maxDimOf_emptyBounds in Hm by exact Hemp.
    injection Hm as <-. lra. }
  unfold maxDimOf, setFromObject in Hm. cbn [objBounds] in Hm.
  rewrite Hemp in Hm. unfold getSize in Hm. rewrite span_not_empty in Hm.
  unfold subVectors, vmin, vmax in Hm. cbn [bmin bmax vx vy vz] in Hm.
  apply max3_fin_inv in Hm as (dx & dy & dz & Hx & Hy & Hz);
    try apply span_not_NegInf.
  apply span_fin_inv in Hx as (a1 & a2 & Ha1 & Ha2).
  apply span_fin_inv in Hy as (b1 & b2 & Hb1 & Hb2).
  apply span_fin_inv in Hz as (c1 & c2 & Hc1 & Hc2).
  assert (Hlo : toParent (object3D p ones B) (bmin B) = finVec a1 b1 c1).
  { destruct (toParent (object3D p ones B) (bmin B)).
    cbn [vx vy vz] in *. unfold finVec. congruence. }
  assert (Hhi : toParent (object3D p ones B) (bmax B) = finVec a2 b2 c2).
  { destruct (toParent (object3D p ones B) (bmax B)).
    cbn [vx vy vz] in *. unfold finVec. congruence. }
  apply toParent_unit_fin_inv in Hlo as [Hp Hlo].
  apply toParent_unit_fin_inv in Hhi as [_ Hhi].
  apply finiteVector_inv in Hp as (px & py & pz & ->).
  destruct B as [lo hi]. cbn [bmin bmax] in *.
  apply finiteVector_inv in Hlo as (lx & ly & lz & ->).
  apply finiteVector_inv in Hhi as (hx & hy & hz & ->).
  unfold isEmpty, finVec in Hemp. cbn [bmin bmax vx vy vz] in Hemp.
  apply orb_false_elim in Hemp as [Hemp Hc].
  apply orb_false_elim in Hemp as [Ha Hb].
  apply lt_false_fin in Ha, Hb, Hc.
  exists px, py, pz, lx, ly, lz, hx, hy, hz. repeat split; assumption.
Qed.

(** A positive finite [maxDim] comes from finite, ordered bounds. *)
Lemma positive_maxDim_properBox n m :
  maxDimOf (rawObject n) = Fin m -> 0 < m -> properBox (rawBounds n).
Proof.
  intros Hm Hpos.
  destruct (positive_maxDim_unit_root (rawObject n) m eq_refl Hm Hpos)
    as (px & py & pz & lx & ly & lz & hx & hy & hz & E & Hx & Hy & Hz).
  unfold rawObject in E. injection E as _ _ _ E.
  exists lx, ly, lz, hx, hy, hz. repeat split; assumption.
Qed.

Lemma rawObject_finBox lx ly lz hx hy hz :
  rawObject (rawNode (finBox lx ly lz hx hy hz)) =
  object3D (finVec 0 0 0) (setScalar (Fin 1)) (finBox lx ly lz hx hy hz).
Proof. reflexivity. Qed.

(** Normalisation of a scene with finite bounds and largest extent
    [m > 0], in closed form. *)
Lemma normalize_finBox lx ly lz hx hy hz m :
  lx <= hx -> ly <= hy -> lz <= hz ->
  m = largest (hx - lx) (hy - ly) (hz - lz) -> 0 < m ->
  normalize (rawObject (rawNode (finBox lx ly lz hx hy hz))) =
  modelState
    (Some (object3D
             (finVec (- ((2 / m * lx + 2 / m * hx) / 2))
                     (- (2 / m * ly) - 1)
                     (- ((2 / m * lz + 2 / m * hz) / 2)))
             (setScalar (Fin (2 / m)))
             (finBox lx ly lz hx hy hz)))
    (Fin (- (2 / m * ly))) (Fin (- (2 / m * lx))) (Fin (- (2 / m * lz))).
Proof.
  intros Hx Hy Hz Hm Hpos.
  assert (Hk : 0 <= 2 / m).
  { apply Rlt_le, Rdiv_lt_0_compat; lra. }
  unfold normalize, uniformScale.
  rewrite rawObject_finBox, maxDimOf_finBox by (assumption || lra).
  rewrite <- Hm, div_fin by lra.
  replace (2 / (1 * m)) with (2 / m) by (f_equal; lra).
  unfold Three.withScale, Three.withPosition.
  cbn [objPosition objBounds objScale].
  rewrite setFromObject_finBox by assumption.
  rewrite getCenter_finBox by nra.
  unfold finBox, finVec; cbn.
  f_equal; [do 2 f_equal; f_equal | | |]; apply Fin_eq; lra.
Qed.

Lemma largest_cube : largest (1 - -1) (1 - -1) (1 - -1) = 2.
Proof.
  unfold largest, Rmax.
  repeat match goal with
  | |- context [Rle_dec ?a ?b] => destruct (Rle_dec a b)
  end; lra.
Qed.

Lemma normalize_cube : normalize (rawObject cube) = cubeState.
Proof.
  unfold cube, cubeState.
  rewrite (normalize_finBox (-1) (-1) (-1) 1 1 1 2);
    try lra; [|symmetry; apply largest_cube].
  unfold finVec, setScalar.
  f_equal; [do 2 f_equal; f_equal| | |]; apply Fin_eq; lra.
Qed.

Lemma normalize_emptyScene :
  normalize (rawObject emptyScene) =
  modelState
    (Some (object3D (vec3 (Fin (- 0)) NegInf (Fin (- 0))) (setScalar PosInf)
                    makeEmpty))
    NegInf NegInf NegInf.
Proof.
  unfold normalize, uniformScale.
  rewrite maxDimOf_emptyBounds by reflexivity.
  rewrite div_two_zero. reflexivity.
Qed.

(** ** Normalisation *)



Lemma largest_crate : largest (2 - 0) (1 - 0) (4 - 0) = 4.
Proof.
  unfold largest, Rmax.
  repeat match goal with
  | |- context [Rle_dec ?a ?b] => destruct (Rle_dec a b)
  end; lra.
Qed.

Lemma Rlt_0_4 : 0 < 4.
Proof. lra. Qed.





(** An object with geometry whose [maxDim] is zero: the scale is
    [Infinity], the matrix of the root holds [NaN], and so do the box, the
    position and the stored offsets. *)
Lemma normalize_zero_extent o :
  isEmpty (objBounds o) = false ->
  maxDimOf o = Fin 0 ->
  normalize o =
  modelState
    (Some (object3D (vec3 NaN NaN NaN) (setScalar PosInf) (objBounds o)))
    NaN NaN NaN.
Proof.
  intros Hemp Hzero. unfold normalize, uniformScale.
  rewrite Hzero, div_two_zero.
  unfold setFromObject, Three.withScale.
  cbn [objBounds objPosition]. rewrite Hemp.
  rewrite !toParent_infinite_scale. reflexivity.
Qed.

Lemma normalize_no_geometry o :
  isEmpty (objBounds o) = true ->
  originalLeftX (normalize o) = NegInf /\
  originalBottomY (normalize o) = NegInf /\
  originalFrontZ (normalize o) = NegInf.
Proof.
  intros Hemp. unfold normalize, uniformScale.
  rewrite maxDimOf_emptyBounds by exact Hemp. rewrite div_two_zero.
  unfold setFromObject. cbn [Three.withScale objBounds].
  rewrite Hemp. repeat split.
Qed.

(** C4, as the code has it.  A loaded object whose [maxDim] is zero or not
    finite is not rejected: once the loader has resolved, [loadModel] logs
    nothing and sets the model, scaled by [2 / maxDim] as for any other
    object; that scale is [Infinity], zero or [NaN], never another finite
    number.  When [maxDim] is zero the scale is [Infinity] and none of the
    three stored offsets is a finite number; they are [-Infinity] for a
    scene without geometry. *)
Theorem degenerate_geometry_not_rejected :
  forall o,
    degenerate (maxDimOf o) ->
    let st' := normalize o in
    (forall env url format n st,
       loadByFormat env url format = Returned n -> rawObject n = o ->
       loadModel env url format st = (st', None)) /\
    (exists o',
       model st' = Some o' /\
       objScale o' = setScalar (div (Fin 2) (maxDimOf o))) /\
    (forall k, div (Fin 2) (maxDimOf o) = Fin k -> k = 0%R) /\
    (maxDimOf o = Fin 0 ->
       div (Fin 2) (maxDimOf o) = PosInf /\
       isFinite (originalLeftX st') = false /\
       isFinite (originalBottomY st') = false /\
       isFinite (originalFrontZ st') = false /\
       (isEmpty (objBounds o) = true ->
          anchorPoint st' = vec3 NegInf NegInf NegInf)).
Proof.
  intros o Hdeg st'. subst st'.
  split.
  { intros env url format n st Hload <-. unfold loadModel. rewrite Hload.
    reflexivity. }
  split; [eexists; split; reflexivity|].
  split.
  { intros k Hk. destruct Hdeg as [Hzero | Hinf].
    - rewrite Hzero, div_two_zero in Hk. discriminate.
    - destruct (maxDimOf o); try discriminate; cbn [div] in Hk; congruence. }
  intros Hzero. split; [rewrite Hzero; apply div_two_zero|].
  destruct (isEmpty (objBounds o)) eqn:Hemp.
  - destruct (normalize_no_geometry o Hemp) as (Hx & Hy & Hz).
    unfold anchorPoint. rewrite Hx, Hy, Hz. repeat split.
  - rewrite (normalize_zero_extent o Hemp Hzero).
    repeat split. discriminate.
Qed.

Lemma degenerate_emptyScene : degenerate (maxDimOf (rawObject emptyScene)).
Proof. left. apply maxDimOf_emptyBounds. reflexivity. Qed.

Lemma maxDimOf_emptyScene : maxDimOf (rawObject emptyScene) = Fin 0.
Proof. apply maxDimOf_emptyBounds. reflexivity. Qed.

Lemma largest_point : largest (1 - 1) (2 - 2) (3 - 3) = 0.
Proof.
  unfold largest, Rmax.
  repeat match goal with
  | |- context [Rle_dec ?a ?b] => destruct (Rle_dec a b)
  end; lra.
Qed.

Lemma maxDimOf_pointScene : maxDimOf (rawObject pointScene) = Fin 0.
Proof.
  unfold pointScene. rewrite rawObject_finBox, maxDimOf_finBox by lra.
  rewrite largest_point. apply Fin_eq. lra.
Qed.

Lemma degenerate_pointScene : degenerate (maxDimOf (rawObject pointScene)).
Proof. left. exact maxDimOf_pointScene. Qed.

(** C4 at a glb file whose scene has no geometry, and at one whose scene is
    a single point. *)
Lemma degenerate_geometry_not_rejected_emptyScene :
  (degenerate (maxDimOf (rawObject emptyScene)) /\
   loadModel emptySceneLoaders "blob:empty" "glb" initialModelState
     = (normalize (rawObject emptyScene), None) /\
   div (Fin 2) (maxDimOf (rawObject emptyScene)) = PosInf /\
   anchorPoint (normalize (rawObject emptyScene))
     = vec3 NegInf NegInf NegInf) /\
  (degenerate (maxDimOf (rawObject pointScene)) /\
   loadModel pointSceneLoaders "blob:point" "glb" initialModelState
     = (normalize (rawObject pointScene), None) /\
   isFinite (originalLeftX (normalize (rawObject pointScene))) = false).
Proof.
  split.
  - split; [exact degenerate_emptyScene|].
    pose proof (degenerate_geometry_not_rejected (rawObject emptyScene)
                  degenerate_emptyScene) as H.
    cbv zeta in H. destruct H as (Hload & _ & _ & Hzero).
    destruct (Hzero maxDimOf_emptyScene) as (Hscale & _ & _ & _ & Hanchor).
    split; [exact (Hload emptySceneLoaders "blob:empty" "glb" emptyScene
                     initialModelState eq_refl eq_refl)|].
    split; [exact Hscale | exact (Hanchor eq_refl)].
  - split; [exact degenerate_pointScene|].
    pose proof (degenerate_geometry_not_rejected (rawObject pointScene)
                  degenerate_pointScene) as H.
    cbv zeta in H. destruct H as (Hload & _ & _ & Hzero).
    destruct (Hzero maxDimOf_pointScene) as (_ & Hx & _).
    split; [exact (Hload pointSceneLoaders "blob:point" "glb" pointScene
                     initialModelState eq_refl eq_refl)|].
    exact Hx.
Defined.

(** C4 fails as stated: the scene without geometry has [maxDim = 0], yet
    loading it raises no error, the model is set with scale [Infinity], and
    the three stored offsets are [-Infinity]. *)
Lemma empty_scene_is_normalized :
  maxDimOf (rawObject emptyScene) = Fin 0 /\
  loadModel emptySceneLoaders "blob:empty" "glb" initialModelState =
    (modelState
       (Some (object3D (vec3 (Fin (- 0)) NegInf (Fin (- 0)))
                       (setScalar PosInf) makeEmpty))
       NegInf NegInf NegInf,
     None).
Proof.
  split.
  - apply maxDimOf_emptyBounds. reflexivity.
  - unfold loadModel.
    replace (loadByFormat emptySceneLoaders "blob:empty" "glb")
      with (Returned emptyScene) by reflexivity.
    rewrite normalize_emptyScene. reflexivity.
Qed.

(** ** The anchor-preserving transform *)

Lemma toRadians_zero : toRadians zeros = zeros.
Proof.
  unfold toRadians, zeros, Math_PI; simpl.
  destruct (Req_EM_T 180 0) as [E|_]; [lra|].
  f_equal; apply Fin_eq; lra.
Qed.

Lemma rotation_zero : makeRotationFromEuler zeros = identityMatrix.
Proof.
  unfold makeRotationFromEuler, identityMatrix, zeros; simpl.
  rewrite cos_0, sin_0.
  f_equal; apply Fin_eq; lra.
Qed.

Lemma adjustedPosition_ones st position :
  finiteMetrics st = true -> adjustedPosition st position ones = position.
Proof.
  intros Hfin. apply finiteMetrics_inv in Hfin as (a & b & c & Ha & Hb & Hc).
  unfold adjustedPosition, ones; simpl. rewrite Ha, Hb, Hc. simpl.
  destruct position as [px py pz]; simpl.
  f_equal; apply sub_fin_zero; lra.
Qed.

(** C3, for finite offsets.  For every position and every state of [Model]
    whose three stored offsets are finite, scale [(1,1,1)] gives
    [adjustedPosition = position], and with rotation [(0,0,0)] the rendered
    group has that position, scale [(1,1,1)] and the identity rotation
    matrix: it maps every finite point [v] to [position + v]. *)
Theorem identity_composition :
  forall st position,
    finiteMetrics st = true ->
    adjustedPosition st position ones = position /\
    forall o, model st = Some o ->
      exists g,
        render st (modelProps position ones zeros) = Some g /\
        groupPosition g = position /\
        groupScale g = ones /\
        makeRotationFromEuler (groupRotation g) = identityMatrix /\
        forall v, finiteVector v = true ->
          localToWorld g v = addVectors position v.
Proof.
  intros st position Hfin.
  pose proof (adjustedPosition_ones st position Hfin) as Hadj.
  split; [exact Hadj|].
  intros o Ho. unfold render. rewrite Ho.
  eexists. split; [reflexivity|].
  cbn [groupPosition groupScale groupRotation propPosition propScale
       propRotation].
  rewrite Hadj, toRadians_zero, rotation_zero.
  repeat split.
  intros v Hv. apply finiteVector_inv in Hv as (x & y & z & ->).
  unfold localToWorld. cbn [groupPosition groupScale groupRotation].
  rewrite rotation_zero.
  unfold addVectors, applyMatrix3, multiply, identityMatrix, ones, finVec;
    simpl.
  f_equal; apply add_fin_eq; lra.
Qed.

(** C3 at the loaded cube, placed at the origin. *)
Lemma identity_composition_cube :
  finiteMetrics cubeState = true /\
  adjustedPosition cubeState zeros ones = zeros.
Proof.
  split; [reflexivity|].
  exact (proj1 (identity_composition cubeState zeros eq_refl)).
Defined.

(** C3 fails as stated: after the scene without geometry has been loaded
    the stored offsets are [-Infinity], and at scale [(1,1,1)] the adjusted
    position of a model placed at the origin is [NaN], not the origin. *)
Lemma adjusted_not_position_emptyScene :
  adjustedPosition (normalize (rawObject emptyScene)) zeros ones
    = vec3 NaN NaN NaN /\
  adjustedPosition (normalize (rawObject emptyScene)) zeros ones <> zeros.
Proof.
  rewrite normalize_emptyScene.
  unfold adjustedPosition, zeros, ones; simpl. unfold timesInfinity.
  decide_reals. split; [reflexivity | discriminate].
Qed.

Lemma half_turn : 180 * PI / 180 = PI.
Proof. field. Qed.

Lemma no_turn : 0 * PI / 180 = 0.
Proof. lra. Qed.

(** With the loaded cube turned by 180 degrees about the x axis and the
    position held at the origin, the anchor is at [(1,-1,-1)] for scale
    [(1,1,1)] and at [(1,-3,-3)] for scale [(2,2,2)]: [adjustedPosition]
    has no term for the rotation. *)
Lemma anchor_moves_under_rotation :
  anchorInWorld (normalize (rawObject cube)) (modelProps zeros ones halfTurnX)
    = Some (finVec 1 (-1) (-1)) /\
  anchorInWorld (normalize (rawObject cube)) (modelProps zeros twos halfTurnX)
    = Some (finVec 1 (-3) (-3)) /\
  anchorInWorld (normalize (rawObject cube)) (modelProps zeros ones halfTurnX)
  <>
  anchorInWorld (normalize (rawObject cube)) (modelProps zeros twos halfTurnX).
Proof.
  rewrite normalize_cube.
  unfold anchorInWorld, render, localToWorld, toRadians, halfTurnX, Math_PI,
    cubeState.
  cbn [model option_map propPosition propScale propRotation groupPosition
       groupScale groupRotation vx vy vz mul].
  rewrite !div_fin by lra. rewrite half_turn, no_turn.
  unfold makeRotationFromEuler; cbn [vx vy vz jscos jssin].
  rewrite cos_PI, sin_PI, cos_0, sin_0.
  unfold addVectors, applyMatrix3, multiply, adjustedPosition, anchorPoint,
    zeros, ones, twos, finVec; simpl.
  repeat split.
  - do 2 f_equal; apply Fin_eq; lra.
  - do 2 f_equal; apply Fin_eq; lra.
  - intros H. injection H as _ Hy _. lra.
Qed.

(** ** FBX failures *)

Lemma includes_after_prefix m :
  includes (fbxFailedPrefix ++ m) versionNotSupported
  = includes m versionNotSupported.
Proof. reflexivity. Qed.

Lemma fbxCatch_version m :
  includes m versionNotSupported = true ->
  fbxCatch (ErrorObj m) = ErrorObj fbxVersionMessage.
Proof. intros H. unfold fbxCatch. rewrite H. reflexivity. Qed.

Lemma fbxCatch_generic m :
  includes m versionNotSupported = false ->
  fbxCatch (ErrorObj m) = ErrorObj (fbxFailedPrefix ++ m).
Proof. intros H. unfold fbxCatch. rewrite H. reflexivity. Qed.

Lemma genericFailure_intro m :
  includes m versionNotSupported = false ->
  genericFailure (fbxFailedPrefix ++ m).
Proof.
  intros H. repeat split.
  - cbn. destruct m; reflexivity.
  - cbn. discriminate.
  - rewrite includes_after_prefix. exact H.
Qed.

Lemma truthy_false s : truthy s = false -> s = "".
Proof.
  unfold truthy. intros H. apply negb_false_iff in H.
  apply String.eqb_eq in H. exact H.
Qed.

Lemma loadFbx_failure o :
  fbxFailed o = true ->
  exists msg,
    loadFbx o = Threw (ErrorObj msg) /\
    (mentionsVersion (parserText o) = true -> msg = fbxVersionMessage) /\
    (mentionsVersion (parserText o) = false -> genericFailure msg).
Proof.
  destruct o as [model | [[m|]] | [m|]]; cbn [fbxFailed]; intros Hf;
    try discriminate;
    cbn [loadFbx parserText mentionsVersion errMessage].
  - (* [onError] with a message *)
    unfold fbxOnError. cbn [errMessage].
    destruct (includes m versionNotSupported) eqn:Hinc.
    + destruct (truthy m) eqn:Ht.
      * cbn [andb]. exists fbxVersionMessage. repeat split; discriminate.
      * apply truthy_false in Ht. subst m. discriminate.
    + rewrite andb_false_r.
      assert (Hm : includes (messageOrUnknown (Some m)) versionNotSupported
                   = false).
      { unfold messageOrUnknown. destruct (truthy m); [exact Hinc | reflexivity]. }
      rewrite fbxCatch_generic by (rewrite includes_after_prefix; exact Hm).
      eexists. split; [reflexivity|]. split; [discriminate|].
      intros _. apply genericFailure_intro.
      rewrite includes_after_prefix. exact Hm.
  - (* [onError] without a message *)
    unfold fbxOnError. cbn [errMessage].
    rewrite fbxCatch_generic by reflexivity.
    eexists. split; [reflexivity|]. split; [discriminate|].
    intros _. apply genericFailure_intro. reflexivity.
  - (* the loader threw an [Error] *)
    destruct (includes m versionNotSupported) eqn:Hinc.
    + rewrite fbxCatch_version by exact Hinc.
      exists fbxVersionMessage. repeat split; discriminate.
    + rewrite fbxCatch_generic by exact Hinc.
      eexists. split; [reflexivity|]. split; [discriminate|].
      intros _. apply genericFailure_intro. exact Hinc.
  - (* the loader threw something else *)
    eexists. split; [reflexivity|]. split; [discriminate|].
    intros _. apply genericFailure_intro. reflexivity.
Qed.

(** C8.  For every failure of the FBX loader, [loadModel] ends with one
    [Error] in the log: its message is the version message when the
    parser's error text contains "version not supported", and otherwise a
    message of the generic kind, which starts with "FBX loading failed: ",
    differs from the version message and does not contain "version not
    supported". *)
Theorem fbx_failure_kinds :
  forall env url st o,
    fbxLoad env url = o -> fbxFailed o = true ->
    exists msg,
      loadModel env url "fbx" st = (st, Some (ErrorObj msg)) /\
      (mentionsVersion (parserText o) = true -> msg = fbxVersionMessage) /\
      (mentionsVersion (parserText o) = false -> genericFailure msg).
Proof.
  intros env url st o Ho Hf.
  destruct (loadFbx_failure o Hf) as (msg & Hmsg & Hv & Hg).
  exists msg. split; [|split; assumption].
  unfold loadModel, loadByFormat. cbn. rewrite Ho, Hmsg. reflexivity.
Qed.

(** C8 at an FBX file of an old version. *)
Lemma fbx_failure_kinds_old_version :
  fbxFailed (fbxLoad oldFbxLoaders "blob:old") = true /\
  exists msg,
    loadModel oldFbxLoaders "blob:old" "fbx" initialModelState
      = (initialModelState, Some (ErrorObj msg)) /\
    (mentionsVersion (parserText (fbxLoad oldFbxLoaders "blob:old")) = true ->
       msg = fbxVersionMessage) /\
    (mentionsVersion (parserText (fbxLoad oldFbxLoaders "blob:old")) = false ->
       genericFailure msg).
Proof.
  split; [reflexivity|].
  exact (fbx_failure_kinds oldFbxLoaders "blob:old" initialModelState
           (fbxLoad oldFbxLoaders "blob:old") eq_refl eq_refl).
Defined.

(** ** The extension test of the import *)

Lemma endsWith_empty suffix : endsWith "" suffix = true -> suffix = "".
Proof. destruct suffix; [reflexivity | discriminate]. Qed.

Lemma endsWith_lastChar s suffix :
  endsWith s suffix = true -> suffix <> "" -> lastChar s = lastChar suffix.
Proof.
  intros H Hne. induction s as [|c s IH].
  - apply endsWith_empty in H. contradiction.
  - cbn [endsWith] in H. apply orb_true_iff in H as [H | H].
    + apply String.eqb_eq in H. rewrite H. reflexivity.
    + destruct s as [|d s].
      * apply endsWith_empty in H. contradiction.
      * rewrite <- (IH H). reflexivity.
Qed.

Lemma endsWith_exclusive s a b :
  a <> "" -> b <> "" -> lastChar a <> lastChar b ->
  endsWith s a = true -> endsWith s b = false.
Proof.
  intros Ha Hb Hab H. destruct (endsWith s b) eqn:E; [|reflexivity].
  apply endsWith_lastChar in H, E; try assumption. congruence.
Qed.

Lemma glb_not_gltf s : endsWith s ".glb" = true -> endsWith s ".gltf" = false.
Proof. apply endsWith_exclusive; cbn; congruence. Qed.

Lemma fbx_not_gltf s : endsWith s ".fbx" = true -> endsWith s ".gltf" = false.
Proof. apply endsWith_exclusive; cbn; congruence. Qed.

Lemma fbx_not_glb s : endsWith s ".fbx" = true -> endsWith s ".glb" = false.
Proof. apply endsWith_exclusive; cbn; congruence. Qed.

(** C5, as the code has it.  For every imported file, the import is
    accepted exactly when the lower-cased name ends with ".gltf" or ".glb":
    then one record is appended and selected, tagged [glb] when the name
    ends with ".glb" and [gltf] when it ends with ".gltf".  Every other
    name, those ending with ".fbx" included, leaves the state as it was and
    raises the alert. *)
Theorem import_extension_test :
  forall fl objectUrl newId st,
    let lower := toLowerCase (fileName fl) in
    (accepted fl = true ->
       exists item,
         handleImport (Some fl) objectUrl newId st =
           (studio (models st ++ [item]) (Some newId), None) /\
         endsWith lower ("." ++ formatString (format item)) = true /\
         (format item = glb <-> endsWith lower ".glb" = true) /\
         (format item = gltf <-> endsWith lower ".gltf" = true)) /\
    (accepted fl = false ->
       handleImport (Some fl) objectUrl newId st = (st, Some importAlert)) /\
    (endsWith lower ".fbx" = true -> accepted fl = false).
Proof.
  intros fl objectUrl newId st lower. subst lower.
  unfold accepted, handleImport. cbv zeta.
  generalize (toLowerCase (fileName fl)) as lower. intros lower.
  split; [|split].
  - intros Hacc.
    destruct (endsWith lower ".glb") eqn:Hglb.
    + rewrite (glb_not_gltf _ Hglb). cbn [negb andb].
      eexists. split; [reflexivity|]. cbn [format formatString].
      split; [exact Hglb|]. split; [tauto|].
      split; discriminate.
    + rewrite orb_false_r in Hacc. rewrite Hacc. cbn [negb andb].
      eexists. split; [reflexivity|]. cbn [format formatString].
      split; [exact Hacc|]. split; [split; discriminate | tauto].
  - intros Hrej. apply orb_false_elim in Hrej as [Hgltf Hglb].
    rewrite Hgltf, Hglb. reflexivity.
  - intros Hfbx.
    rewrite (fbx_not_gltf _ Hfbx), (fbx_not_glb _ Hfbx). reflexivity.
Qed.

(** C5 at a glb file with an upper-case extension. *)
Lemma import_extension_test_upper_glb :
  accepted (file "Chair.GLB") = true /\
  exists item,
    handleImport (Some (file "Chair.GLB")) "blob:chair" "id-1" emptyStudio =
      (studio (models emptyStudio ++ [item]) (Some "id-1"), None) /\
    format item = glb.
Proof.
  split; [reflexivity|].
  destruct (proj1 (import_extension_test (file "Chair.GLB") "blob:chair"
                     "id-1" emptyStudio) eq_refl)
    as (item & H & _ & Hglb & _).
  exists item. split; [exact H | apply Hglb; reflexivity].
Defined.

(** C5 fails as stated: a file named "model.fbx" has the extension ".fbx",
    yet its import is refused with the alert and the list of models stays
    empty. *)
Lemma fbx_import_rejected :
  endsWith (toLowerCase "model.fbx") ".fbx" = true /\
  accepted (file "model.fbx") = false /\
  handleImport (Some (file "model.fbx")) "blob:model" "id-1" emptyStudio =
    (emptyStudio, Some importAlert).
Proof. repeat split. Qed.

(** ** Failed loads and the list of models *)

Lemma loadModel_failure env url format st e :
  loadByFormat env url format = Threw e ->
  loadModel env url format st = (st, Some e).
Proof. intros H. unfold loadModel. rewrite H. reflexivity. Qed.

Lemma loadModel_logged env url format st e :
  snd (loadModel env url format st) = Some e ->
  loadByFormat env url format = Threw e.
Proof.
  unfold loadModel. destruct (loadByFormat env url format); cbn; intros H.
  - discriminate.
  - congruence.
Qed.

(** C6, as the code has it.  An import that is refused for its extension
    (the one that raises the alert) leaves the list of models and the
    selection as they were.  An import that is accepted appends its record
    and selects it at once, before anything is loaded; when the load of
    that record then fails, the error is caught and logged inside [Model],
    whose state stays the initial one and which renders nothing, and the
    record stays in the list and selected. *)
Theorem failed_import_outcome :
  forall env fl objectUrl newId st st' alerted,
    handleImport (Some fl) objectUrl newId st = (st', alerted) ->
    (alerted <> None -> st' = st) /\
    (alerted = None ->
       exists item,
         models st' = (models st ++ [item])%list /\
         selectedId st' = Some newId /\
         id item = newId /\
         forall e,
           snd (mountModel env item) = Some e ->
           fst (mountModel env item) = initialModelState /\
           forall p, render (fst (mountModel env item)) p = None).
Proof.
  intros env fl objectUrl newId st st' alerted. unfold handleImport. cbv zeta.
  destruct (negb _ && negb _); intros H; injection H as <- <-.
  - split; [reflexivity | discriminate].
  - split; [congruence|]. intros _.
    eexists. split; [reflexivity|]. split; [reflexivity|].
    split; [reflexivity|].
    intros e He. unfold mountModel in *.
    apply loadModel_logged in He.
    rewrite (loadModel_failure _ _ _ _ _ He). cbn [fst].
    split; reflexivity.
Qed.

(** C6 at a glb file that cannot be parsed. *)
Lemma failed_import_outcome_broken_glb :
  exists st',
    handleImport (Some (file "broken.glb")) "blob:broken" "id-1" emptyStudio
      = (st', None) /\
    exists item,
      models st' = (models emptyStudio ++ [item])%list /\
      selectedId st' = Some "id-1".
Proof.
  eexists. split; [reflexivity|].
  destruct (proj2 (failed_import_outcome brokenLoaders (file "broken.glb")
                     "blob:broken" "id-1" emptyStudio _ None eq_refl)
              eq_refl)
    as (item & Hmodels & Hsel & _).
  exists item. split; assumption.
Defined.

(** C6 fails as stated: the import of a glb file whose load fails leaves a
    record for that file in the list and changes the selection. *)
Lemma failed_import_is_kept :
  let st' :=
    fst (handleImport (Some (file "broken.glb")) "blob:broken" "id-1"
           emptyStudio) in
  exists item,
    models st' = [item] /\
    mountModel brokenLoaders item =
      (initialModelState, Some (ErrorObj "Unexpected end of data")) /\
    models st' <> models emptyStudio /\
    selectedId st' <> selectedId emptyStudio.
Proof.
  cbn. eexists. split; [reflexivity|]. split; [reflexivity|].
  split; discriminate.
Qed.

(** ** Transform edits *)

Lemma setSelected_map f axis value st :
  setSelected f axis value st =
  studio (map (fun m => if isSelected (selectedId st) m
                        then editOf f axis value m else m)
              (models st))
         (selectedId st).
Proof. destruct f; reflexivity. Qed.

Lemma component_setAxis axis value v k :
  (k < 3)%nat ->
  component k (setAxis axis value v) =
  if (k =? axis)%nat then Some value else component k v.
Proof.
  intros Hk. destruct k as [|[|[|k]]]; try lia;
    cbn [component setAxis vx vy vz];
    match goal with
    | |- context [(?a =? axis)%nat] => destruct (a =? axis)%nat
    end; reflexivity.
Qed.

Lemma editOf_frame f axis value m :
  id (editOf f axis value m) = id m /\
  name (editOf f axis value m) = name m /\
  url (editOf f axis value m) = url m /\
  format (editOf f axis value m) = format m /\
  (forall g, g <> f -> field g (editOf f axis value m) = field g m) /\
  (forall k, (k < 3)%nat ->
     component k (field f (editOf f axis value m)) =
     if (k =? axis)%nat then Some value else component k (field f m)).
Proof.
  repeat split; try (destruct f; reflexivity).
  - intros g Hg. destruct f, g; try reflexivity; congruence.
  - intros k Hk. destruct f; cbn; apply component_setAxis; exact Hk.
Qed.

Lemma map_unselected sel (f : PlacedModel -> PlacedModel) ms :
  (forall m, In m ms -> isSelected sel m = false) ->
  map (fun m => if isSelected sel m then f m else m) ms = ms.
Proof.
  induction ms as [|m ms IH]; intros Hnone; [reflexivity|].
  cbn [map]. rewrite (Hnone m) by (left; reflexivity).
  f_equal. apply IH. intros m' Hin. apply Hnone. right; exact Hin.
Qed.

Lemma isSelected_iff sel m : isSelected sel m = true <-> sel = Some (id m).
Proof.
  destruct sel as [s|]; cbn [isSelected].
  - rewrite String.eqb_eq. split; [intros ->; reflexivity | congruence].
  - split; discriminate.
Qed.

Lemma isSelected_false_iff sel m :
  isSelected sel m = false <-> sel <> Some (id m).
Proof.
  rewrite <- isSelected_iff. destruct (isSelected sel m); split; congruence.
Qed.

(** C9.  For every edit of a field (position, scale or rotation) on an
    axis, the selection and the number and order of the models stay as they
    were; a model whose id is not the selected id is unchanged; a model
    whose id is the selected id keeps its id, name, url, format and its
    other two fields, and in the edited field the named axis holds the new
    value while the other two axes keep theirs.  When no model has the
    selected id the state is unchanged. *)
Theorem edit_touches_selected_only :
  forall f axis value st,
    let st' := setSelected f axis value st in
    selectedId st' = selectedId st /\
    List.length (models st') = List.length (models st) /\
    (forall i m, nth_error (models st) i = Some m ->
       exists m',
         nth_error (models st') i = Some m' /\
         (selectedId st <> Some (id m) -> m' = m) /\
         (selectedId st = Some (id m) ->
            id m' = id m /\ name m' = name m /\ url m' = url m /\
            format m' = format m /\
            (forall g, g <> f -> field g m' = field g m) /\
            (forall k, (k < 3)%nat ->
               component k (field f m') =
               if (k =? axis)%nat then Some value
               else component k (field f m)))) /\
    ((forall m, In m (models st) -> selectedId st <> Some (id m)) ->
     st' = st).
Proof.
  intros f axis value st st'. subst st'. rewrite setSelected_map.
  cbn [selectedId models].
  split; [reflexivity|]. split; [apply length_map|]. split.
  - intros i m Hi.
    exists (if isSelected (selectedId st) m then editOf f axis value m else m).
    split.
    + rewrite nth_error_map, Hi. reflexivity.
    + destruct (isSelected (selectedId st) m) eqn:E; split; intros H.
      * apply isSelected_iff in E. contradiction.
      * apply editOf_frame.
      * reflexivity.
      * apply isSelected_false_iff in E. contradiction.
  - intros Hnone. rewrite map_unselected.
    + destruct st; reflexivity.
    + intros m Hin. apply isSelected_false_iff. apply Hnone. exact Hin.
Qed.

Lemma lt_0_3 : (0 < 3)%nat.
Proof. lia. Qed.

Lemma lt_1_3 : (1 < 3)%nat.
Proof. lia. Qed.

Lemma lt_2_3 : (2 < 3)%nat.
Proof. lia. Qed.

Lemma Position_is_not_Scale : Position <> Scale.
Proof. discriminate. Qed.

Lemma Rotation_not_Scale : Rotation <> Scale.
Proof. discriminate. Qed.

Lemma b_is_not_a :
  selectedId twoModels <>
  Some (id (placedModel "a" "chair.glb" "blob:a" glb zeros ones zeros)).
Proof. discriminate. Qed.

(** C9 at an edit of the y scale with two models in the list, the second
    one selected: the first model is what it was, and of the second one
    only the y scale has changed, to the new value 2. *)
Lemma edit_touches_selected_only_scale :
  exists a' b',
    nth_error (models (setSelected Scale 1 (Fin 2) twoModels)) 0 = Some a' /\
    nth_error (models (setSelected Scale 1 (Fin 2) twoModels)) 1 = Some b' /\
    a' = placedModel "a" "chair.glb" "blob:a" glb zeros ones zeros /\
    id b' = "b" /\ position b' = zeros /\ rotation b' = zeros /\
    component 0 (scale b') = Some (Fin 1) /\
    component 1 (scale b') = Some (Fin 2) /\
    component 2 (scale b') = Some (Fin 1).
Proof.
  pose proof (edit_touches_selected_only Scale 1 (Fin 2) twoModels) as H.
  cbv zeta in H. destruct H as (_ & _ & Hnth & _).
  destruct (Hnth 0%nat _ eq_refl) as (a' & Ha & Hkeep & _).
  destruct (Hnth 1%nat _ eq_refl) as (b' & Hb & _ & Hedit).
  destruct (Hedit eq_refl) as (Hid & _ & _ & _ & Hother & Hcomp).
  exists a', b'.
  split; [exact Ha|]. split; [exact Hb|].
  split; [exact (Hkeep b_is_not_a)|].
  split; [exact Hid|].
  split; [exact (Hother Position Position_is_not_Scale)|].
  split; [exact (Hother Rotation Rotation_not_Scale)|].
  split; [exact (Hcomp 0%nat lt_0_3)|].
  split; [exact (Hcomp 1%nat lt_1_3) | exact (Hcomp 2%nat lt_2_3)].
Defined.

(** ** Camera views *)

Lemma switchView_canonical view cam controls :
  In view viewTags ->
  switchView view cam controls =
  (camera (multiplyScalar (axisUnitVector view) distance),
   setTarget controls origin).
Proof.
  intros Hin. unfold viewTags in Hin. cbn [In] in Hin.
  destruct Hin as [<- | [<- | [<- | [<- | [<- | [<- | []]]]]]];
    unfold switchView, axisUnitVector; cbn [String.eqb Ascii.eqb Bool.eqb];
    unfold multiplyScalar, distance; cbn [vx vy vz mul neg];
    do 3 f_equal; apply Fin_eq; lra.
Qed.

Lemma switchView_other view cam controls :
  ~ In view viewTags -> switchView view cam controls = (cam, controls).
Proof.
  intros Hnot. unfold switchView.
  repeat match goal with
  | |- context [(view =? ?t)%string] =>
      destruct (String.eqb_spec view t) as [E|_];
      [exfalso; apply Hnot; rewrite E; unfold viewTags; cbn [In]; tauto|]
  end.
  reflexivity.
Qed.

(** *** The spherical coordinates of the controls *)

Lemma polarEPS_pos : 0 < polarEPS.
Proof. unfold polarEPS. lra. Qed.

Lemma polarEPS_small : polarEPS < 1.
Proof. unfold polarEPS. lra. Qed.

Lemma unit_ratio y r : 0 < r -> y * y <= r * r -> -1 <= y / r <= 1.
Proof.
  intros Hr Hy.
  assert (Hb : - r <= y <= r) by nra.
  split.
  - apply Rmult_le_reg_r with r; [exact Hr|].
    unfold Rdiv. rewrite Rmult_assoc, Rinv_l by lra. lra.
  - apply Rmult_le_reg_r with r; [exact Hr|].
    unfold Rdiv. rewrite Rmult_assoc, Rinv_l by lra. lra.
Qed.

Lemma setFromVector3_fin x y z r :
  0 < r -> x * x + y * y + z * z = r * r ->
  setFromVector3 (finVec x y z) =
  spherical (Fin r) (Fin (acos (y / r))) (Fin (angle x z)).
Proof.
  intros Hr Hsum.
  assert (Hq : -1 <= y / r <= 1) by (apply unit_ratio; nra).
  unfold setFromVector3, finVec, clamp. cbn [vx vy vz mul add].
  rewrite Hsum. cbn [jssqrt].
  destruct (Rlt_dec (r * r) 0) as [Hneg|_]; [nra|].
  rewrite sqrt_square by lra. cbn [isZero].
  destruct (Req_EM_T r 0) as [E|_]; [lra|].
  rewrite div_fin by lra. cbn [min max jsacos jsatan2].
  rewrite (Rmin_right 1 (y / r)) by lra.
  rewrite (Rmax_right (-1) (y / r)) by lra.
  destruct (Rlt_dec (y / r) (-1)) as [H|_]; [lra|].
  destruct (Rlt_dec 1 (y / r)) as [H|_]; [lra|].
  reflexivity.
Qed.

Lemma update_fin px py pz tx ty tz x y z r :
  x = px - tx -> y = py - ty -> z = pz - tz ->
  0 < r -> x * x + y * y + z * z = r * r ->
  update (camera (finVec px py pz)) (orbitControls (finVec tx ty tz)) =
  (camera
     (finVec
        (tx + sin (safePhi (acos (y / r))) * safeRadius r * sin (angle x z))
        (ty + cos (safePhi (acos (y / r))) * safeRadius r)
        (tz + sin (safePhi (acos (y / r))) * safeRadius r * cos (angle x z))),
   orbitControls (finVec tx ty tz)).
Proof.
  intros Ex Ey Ez Hr Hsum. unfold update.
  cbn [cameraPosition target].
  assert (Hoff : subVectors (finVec px py pz) (finVec tx ty tz) = finVec x y z).
  { unfold subVectors, finVec; cbn [vx vy vz sub add neg].
    f_equal; apply Fin_eq; lra. }
  rewrite Hoff, (setFromVector3_fin x y z r Hr Hsum).
  unfold makeSafe, setFromSpherical, addVectors, finVec, safePhi, safeRadius,
    minPolarAngle, maxPolarAngle, minDistance, maxDistance, Math_PI, EPS,
    polarEPS.
  cbn. reflexivity.
Qed.

(** The limits leave a polar angle between the smallest one and its mirror
    image alone, and a distance between 1 and 50 as well. *)
Lemma safePhi_inside a :
  polarEPS <= a <= PI - polarEPS -> safePhi a = a.
Proof.
  intros [Hlo Hhi]. pose proof polarEPS_pos as He. unfold safePhi.
  rewrite (Rmin_right PI a) by lra. rewrite (Rmax_right 0 a) by lra.
  rewrite (Rmin_right (PI - polarEPS) a) by lra.
  apply Rmax_right. exact Hlo.
Qed.

Lemma safePhi_zero : safePhi 0 = polarEPS.
Proof.
  pose proof polarEPS_pos as He. pose proof polarEPS_small as Hs.
  pose proof PI2_1 as Hpi. unfold safePhi.
  rewrite (Rmin_right PI 0) by lra. rewrite (Rmax_left 0 0) by lra.
  rewrite (Rmin_right (PI - polarEPS) 0) by lra.
  apply Rmax_left. lra.
Qed.

Lemma safePhi_PI : safePhi PI = PI - polarEPS.
Proof.
  pose proof polarEPS_pos as He. pose proof polarEPS_small as Hs.
  pose proof PI2_1 as Hpi. unfold safePhi.
  rewrite (Rmin_left PI PI) by lra. rewrite (Rmax_right 0 PI) by lra.
  rewrite (Rmin_left (PI - polarEPS) PI) by lra.
  apply Rmax_right. lra.
Qed.

Lemma safePhi_PI2 : safePhi (PI / 2) = PI / 2.
Proof.
  pose proof polarEPS_pos as He. pose proof polarEPS_small as Hs.
  pose proof PI2_1 as Hpi. apply safePhi_inside. lra.
Qed.

Lemma safeRadius_inside r : 1 <= r <= 50 -> safeRadius r = r.
Proof.
  intros [Hlo Hhi]. unfold safeRadius.
  rewrite (Rmin_right 50 r) by lra. apply Rmax_right. exact Hlo.
Qed.


Lemma acos_m1 : acos (-1) = PI.
Proof.
  replace (-1) with (- (1)) by lra. rewrite acos_opp, acos_1. lra.
Qed.

(** The angle of the points on the axes. *)
Lemma angle_ahead x : 0 < x -> angle 0 x = 0.
Proof.
  intros Hx. unfold angle. destruct (Rlt_dec 0 x) as [_|H]; [|lra].
  replace (0 / x) with 0 by (unfold Rdiv; lra). apply atan_0.
Qed.

Lemma angle_behind x : x < 0 -> angle 0 x = PI.
Proof.
  intros Hx. unfold angle. destruct (Rlt_dec 0 x) as [H|_]; [lra|].
  destruct (Rlt_dec x 0) as [_|H]; [|lra].
  destruct (Rlt_dec 0 0) as [H|_]; [lra|].
  replace (0 / x) with 0 by (unfold Rdiv; lra). rewrite atan_0. lra.
Qed.

Lemma angle_right y : 0 < y -> angle y 0 = PI / 2.
Proof.
  intros Hy. unfold angle. destruct (Rlt_dec 0 0) as [H|_]; [lra|].
  destruct (Rlt_dec 0 y) as [_|H]; [reflexivity | lra].
Qed.

Lemma angle_left y : y < 0 -> angle y 0 = - (PI / 2).
Proof.
  intros Hy. unfold angle. destruct (Rlt_dec 0 0) as [H|_]; [lra|].
  destruct (Rlt_dec 0 y) as [H|_]; [lra|].
  destruct (Rlt_dec y 0) as [_|H]; [reflexivity | lra].
Qed.

Lemma angle_origin : angle 0 0 = 0.
Proof.
  unfold angle. destruct (Rlt_dec 0 0) as [H|_]; [lra | reflexivity].
Qed.

Lemma sin_mPI2 : sin (- (PI / 2)) = -1.
Proof. rewrite sin_neg, sin_PI2. reflexivity. Qed.

Lemma cos_mPI2 : cos (- (PI / 2)) = 0.
Proof. rewrite cos_neg. apply cos_PI2. Qed.

Lemma cos_PI_minus x : cos (PI - x) = - cos x.
Proof. rewrite cos_minus, cos_PI, sin_PI. lra. Qed.

Lemma sin_polarEPS_pos : 0 < sin polarEPS.
Proof.
  pose proof polarEPS_pos. pose proof polarEPS_small. pose proof PI2_1.
  apply sin_gt_0; lra.
Qed.

Lemma ratio_zero r : 0 / r = 0.
Proof. unfold Rdiv. lra. Qed.

Lemma ratio_one r : r <> 0 -> r / r = 1.
Proof. intros H. field. exact H. Qed.

(** [update()] on the six poses that the switch writes. *)
Lemma update_front :
  update (camera (finVec 0 0 8)) (orbitControls (finVec 0 0 0)) =
  (camera (finVec 0 0 8), orbitControls (finVec 0 0 0)).
Proof.
  rewrite (update_fin 0 0 8 0 0 0 0 0 8 8) by lra.
  rewrite ratio_zero, acos_0, safePhi_PI2, safeRadius_inside by lra.
  rewrite angle_ahead by lra. rewrite sin_PI2, cos_PI2, sin_0, cos_0.
  unfold finVec. do 2 f_equal. f_equal; apply Fin_eq; lra.
Qed.

Lemma update_back :
  update (camera (finVec 0 0 (-8))) (orbitControls (finVec 0 0 0)) =
  (camera (finVec 0 0 (-8)), orbitControls (finVec 0 0 0)).
Proof.
  rewrite (update_fin 0 0 (-8) 0 0 0 0 0 (-8) 8) by lra.
  rewrite ratio_zero, acos_0, safePhi_PI2, safeRadius_inside by lra.
  rewrite angle_behind by lra. rewrite sin_PI2, cos_PI2, sin_PI, cos_PI.
  unfold finVec. do 2 f_equal. f_equal; apply Fin_eq; lra.
Qed.

Lemma update_left :
  update (camera (finVec (-8) 0 0)) (orbitControls (finVec 0 0 0)) =
  (camera (finVec (-8) 0 0), orbitControls (finVec 0 0 0)).
Proof.
  rewrite (update_fin (-8) 0 0 0 0 0 (-8) 0 0 8) by lra.
  rewrite ratio_zero, acos_0, safePhi_PI2, safeRadius_inside by lra.
  rewrite angle_left by lra. rewrite sin_PI2, cos_PI2, sin_mPI2, cos_mPI2.
  unfold finVec. do 2 f_equal. f_equal; apply Fin_eq; lra.
Qed.

Lemma update_right :
  update (camera (finVec 8 0 0)) (orbitControls (finVec 0 0 0)) =
  (camera (finVec 8 0 0), orbitControls (finVec 0 0 0)).
Proof.
  rewrite (update_fin 8 0 0 0 0 0 8 0 0 8) by lra.
  rewrite ratio_zero, acos_0, safePhi_PI2, safeRadius_inside by lra.
  rewrite angle_right by lra. rewrite sin_PI2, cos_PI2.
  unfold finVec. do 2 f_equal. f_equal; apply Fin_eq; lra.
Qed.

Lemma update_top :
  update (camera (finVec 0 8 0)) (orbitControls (finVec 0 0 0)) =
  (camera (finVec 0 (8 * cos polarEPS) (8 * sin polarEPS)),
   orbitControls (finVec 0 0 0)).
Proof.
  rewrite (update_fin 0 8 0 0 0 0 0 8 0 8) by lra.
  rewrite ratio_one, acos_1, safePhi_zero, safeRadius_inside by lra.
  rewrite angle_origin, sin_0, cos_0.
  unfold finVec. do 2 f_equal. f_equal; apply Fin_eq; lra.
Qed.

Lemma update_bottom :
  update (camera (finVec 0 (-8) 0)) (orbitControls (finVec 0 0 0)) =
  (camera (finVec 0 (- (8 * cos polarEPS)) (8 * sin polarEPS)),
   orbitControls (finVec 0 0 0)).
Proof.
  rewrite (update_fin 0 (-8) 0 0 0 0 0 (-8) 0 8) by lra.
  replace (-8 / 8) with (-1) by lra.
  rewrite acos_m1, safePhi_PI, safeRadius_inside by lra.
  rewrite angle_origin, sin_0, cos_0, sin_PI_x, cos_PI_minus.
  unfold finVec. do 2 f_equal. f_equal; apply Fin_eq; lra.
Qed.

(** *** Back from spherical coordinates *)

Lemma same_square a b : 0 <= a -> 0 <= b -> a * a = b * b -> a = b.
Proof. intros Ha Hb H. nra. Qed.

Lemma hypotenuse u : 0 < sqrt (1 + u²) /\ sqrt (1 + u²) * sqrt (1 + u²) = 1 + u².
Proof.
  assert (H : 0 < 1 + u²) by (unfold Rsqr; nra).
  split; [apply sqrt_lt_R0; exact H | apply sqrt_sqrt; lra].
Qed.

(** A point of the plane from its distance to the origin and its angle. *)
Lemma polar_angle x z rho :
  0 <= rho -> rho * rho = x * x + z * z ->
  rho * sin (angle x z) = x /\ rho * cos (angle x z) = z.
Proof.
  intros Hrho Hsq. unfold angle.
  destruct (Rlt_dec 0 z) as [Hz|Hz].
  - destruct (hypotenuse (x / z)) as [Hs Hss].
    assert (Hu : x / z * z = x) by (field; lra).
    assert (Hr : rho = z * sqrt (1 + (x / z)²)).
    { apply same_square; [exact Hrho | nra |].
      replace (z * sqrt (1 + (x / z)²) * (z * sqrt (1 + (x / z)²)))
        with (z * z * (sqrt (1 + (x / z)²) * sqrt (1 + (x / z)²))) by ring.
      rewrite Hss, Hsq. unfold Rsqr. rewrite <- Hu at 1 2. field. lra. }
    rewrite sin_atan, cos_atan, Hr. split.
    + transitivity (x / z * z); [field; lra | exact Hu].
    + field. lra.
  - destruct (Rlt_dec z 0) as [Hz'|Hz'].
    + destruct (hypotenuse (x / z)) as [Hs Hss].
      assert (Hu : x / z * z = x) by (field; lra).
      assert (Hr : rho = - z * sqrt (1 + (x / z)²)).
      { apply same_square; [exact Hrho | nra |].
        replace (- z * sqrt (1 + (x / z)²) * (- z * sqrt (1 + (x / z)²)))
          with (z * z * (sqrt (1 + (x / z)²) * sqrt (1 + (x / z)²))) by ring.
        rewrite Hss, Hsq. unfold Rsqr. rewrite <- Hu at 1 2. field. lra. }
      assert (Hsin : forall a, sin (a - PI) = - sin a).
      { intros a. rewrite sin_minus, cos_PI, sin_PI. lra. }
      assert (Hcos : forall a, cos (a - PI) = - cos a).
      { intros a. rewrite cos_minus, cos_PI, sin_PI. lra. }
      destruct (Rlt_dec x 0) as [Hx|Hx];
        rewrite ?Hsin, ?Hcos, ?neg_sin, ?neg_cos, sin_atan, cos_atan, Hr;
        (split; [transitivity (x / z * z); [field; lra | exact Hu]
                | field; lra]).
    + assert (E : z = 0) by lra. subst z.
      destruct (Rlt_dec 0 x) as [Hx|Hx].
      * rewrite sin_PI2, cos_PI2.
        assert (rho = x) by (apply same_square; nra). lra.
      * destruct (Rlt_dec x 0) as [Hx'|Hx'].
        -- rewrite sin_mPI2, cos_mPI2.
           assert (rho = - x) by (apply same_square; nra). lra.
        -- assert (E : x = 0) by lra. subst x.
           assert (rho = 0) by (apply same_square; nra).
           rewrite sin_0, cos_0. lra.
Qed.

(** The spherical coordinates of a point give the point back. *)
Lemma spherical_round_trip x y z r :
  0 < r -> x * x + y * y + z * z = r * r ->
  sin (acos (y / r)) * r * sin (angle x z) = x /\
  cos (acos (y / r)) * r = y /\
  sin (acos (y / r)) * r * cos (angle x z) = z.
Proof.
  intros Hr Hsum.
  assert (Hq : -1 <= y / r <= 1) by (apply unit_ratio; nra).
  assert (Hy : y / r * r = y) by (field; lra).
  rewrite cos_acos, sin_acos by exact Hq.
  assert (Hone : 0 <= 1 - (y / r)²) by (unfold Rsqr; nra).
  pose proof (sqrt_pos (1 - (y / r)²)) as Hs.
  pose proof (sqrt_sqrt _ Hone) as Hss.
  destruct (polar_angle x z (sqrt (1 - (y / r)²) * r)) as [Hx Hz].
  - nra.
  - replace (sqrt (1 - (y / r)²) * r * (sqrt (1 - (y / r)²) * r))
      with (sqrt (1 - (y / r)²) * sqrt (1 - (y / r)²) * (r * r)) by ring.
    rewrite Hss. unfold Rsqr.
    replace ((1 - y / r * (y / r)) * (r * r))
      with (r * r - (y / r * r) * (y / r * r)) by ring.
    rewrite Hy. lra.
  - repeat split; assumption.
Qed.

(** A camera at rest is a fixed point of [update()]. *)
Lemma update_atRest cam controls :
  cameraAtRest cam controls -> update cam controls = (cam, controls).
Proof.
  intros (tx & ty & tz & x & y & z & r & Ht & Hc & Hr & Hsum & Hd & Hp).
  destruct cam as [p], controls as [t]. cbn [cameraPosition target] in *.
  subst p t.
  rewrite (update_fin (tx + x) (ty + y) (tz + z) tx ty tz x y z r)
    by (assumption || lra).
  rewrite safePhi_inside, safeRadius_inside by assumption.
  destruct (spherical_round_trip x y z r Hr Hsum) as (Hx & Hy & Hz).
  rewrite Hx, Hy, Hz. reflexivity.
Qed.

(** *** The handler *)

Lemma sin2_cos2_polarEPS :
  sin polarEPS * sin polarEPS + cos polarEPS * cos polarEPS = 1.
Proof. pose proof (sin2_cos2 polarEPS) as H. unfold Rsqr in H. exact H. Qed.

(** After the snap to a view the camera is at rest. *)
Lemma snapped_atRest view :
  In view viewTags ->
  cameraAtRest (camera (snappedPosition view)) (orbitControls origin).
Proof.
  intros Hin. unfold viewTags in Hin. cbn [In] in Hin.
  pose proof polarEPS_pos as He. pose proof polarEPS_small as Hs.
  pose proof PI2_1 as Hpi. pose proof sin2_cos2_polarEPS as Hsc.
  unfold cameraAtRest. cbn [cameraPosition target].
  destruct Hin as [<- | [<- | [<- | [<- | [<- | [<- | []]]]]]].
  - exists 0, 0, 0, 0, 0, 8, 8. rewrite ratio_zero, acos_0.
    repeat split; try lra.
    unfold snappedPosition, axisUnitVector, multiplyScalar, distance, finVec.
    cbn. f_equal; apply Fin_eq; lra.
  - exists 0, 0, 0, 0, 0, (-8), 8. rewrite ratio_zero, acos_0.
    repeat split; try lra.
    unfold snappedPosition, axisUnitVector, multiplyScalar, distance, finVec.
    cbn. f_equal; apply Fin_eq; lra.
  - exists 0, 0, 0, (-8), 0, 0, 8. rewrite ratio_zero, acos_0.
    repeat split; try lra.
    unfold snappedPosition, axisUnitVector, multiplyScalar, distance, finVec.
    cbn. f_equal; apply Fin_eq; lra.
  - exists 0, 0, 0, 8, 0, 0, 8. rewrite ratio_zero, acos_0.
    repeat split; try lra.
    unfold snappedPosition, axisUnitVector, multiplyScalar, distance, finVec.
    cbn. f_equal; apply Fin_eq; lra.
  - exists 0, 0, 0, 0, (8 * cos polarEPS), (8 * sin polarEPS), 8.
    replace (8 * cos polarEPS / 8) with (cos polarEPS) by (field; lra).
    rewrite acos_cos by lra.
    repeat split; try lra; try nra.
    unfold snappedPosition, finVec. cbn. f_equal; apply Fin_eq; lra.
  - exists 0, 0, 0, 0, (- (8 * cos polarEPS)), (8 * sin polarEPS), 8.
    replace (- (8 * cos polarEPS) / 8) with (- cos polarEPS) by (field; lra).
    rewrite acos_opp, acos_cos by lra.
    repeat split; try lra; try nra.
    unfold snappedPosition, finVec. cbn. f_equal; apply Fin_eq; lra.
Qed.

(** [update()] on the pose that the switch writes for a view. *)
Lemma update_switched view :
  In view viewTags ->
  update (camera (multiplyScalar (axisUnitVector view) distance))
         (orbitControls origin) =
  (camera (snappedPosition view), orbitControls origin).
Proof.
  intros Hin. unfold viewTags in Hin. cbn [In] in Hin.
  destruct Hin as [<- | [<- | [<- | [<- | [<- | [<- | []]]]]]].
  - transitivity (update (camera (finVec 0 0 8)) (orbitControls (finVec 0 0 0))).
    + unfold axisUnitVector, multiplyScalar, distance, origin, finVec. cbn.
      do 3 f_equal; apply Fin_eq; lra.
    + rewrite update_front.
      unfold snappedPosition, axisUnitVector, multiplyScalar, distance, origin,
        finVec. cbn. do 3 f_equal; apply Fin_eq; lra.
  - transitivity
      (update (camera (finVec 0 0 (-8))) (orbitControls (finVec 0 0 0))).
    + unfold axisUnitVector, multiplyScalar, distance, origin, finVec. cbn.
      do 3 f_equal; apply Fin_eq; lra.
    + rewrite update_back.
      unfold snappedPosition, axisUnitVector, multiplyScalar, distance, origin,
        finVec. cbn. do 3 f_equal; apply Fin_eq; lra.
  - transitivity
      (update (camera (finVec (-8) 0 0)) (orbitControls (finVec 0 0 0))).
    + unfold axisUnitVector, multiplyScalar, distance, origin, finVec. cbn.
      do 3 f_equal; apply Fin_eq; lra.
    + rewrite update_left.
      unfold snappedPosition, axisUnitVector, multiplyScalar, distance, origin,
        finVec. cbn. do 3 f_equal; apply Fin_eq; lra.
  - transitivity (update (camera (finVec 8 0 0)) (orbitControls (finVec 0 0 0))).
    + unfold axisUnitVector, multiplyScalar, distance, origin, finVec. cbn.
      do 3 f_equal; apply Fin_eq; lra.
    + rewrite update_right.
      unfold snappedPosition, axisUnitVector, multiplyScalar, distance, origin,
        finVec. cbn. do 3 f_equal; apply Fin_eq; lra.
  - transitivity (update (camera (finVec 0 8 0)) (orbitControls (finVec 0 0 0))).
    + unfold axisUnitVector, multiplyScalar, distance, origin, finVec. cbn.
      do 3 f_equal; apply Fin_eq; lra.
    + rewrite update_top. reflexivity.
  - transitivity
      (update (camera (finVec 0 (-8) 0)) (orbitControls (finVec 0 0 0))).
    + unfold axisUnitVector, multiplyScalar, distance, origin, finVec. cbn.
      do 3 f_equal; apply Fin_eq; lra.
    + rewrite update_bottom. reflexivity.
Qed.

(** One event with one of the six tags, on a rig with camera and
    controls. *)
Lemma handle_view view cam controls :
  In view viewTags ->
  handleCameraViewChange view (rig (Some cam) (Some controls)) =
  rig (Some (camera (snappedPosition view))) (Some (orbitControls origin)).
Proof.
  intros Hin. unfold handleCameraViewChange. cbn [rigCamera controlsRef].
  rewrite (switchView_canonical _ _ _ Hin). unfold setTarget.
  rewrite (update_switched view Hin). reflexivity.
Qed.

(** One event with any other tag. *)
Lemma handle_other view cam controls :
  ~ In view viewTags ->
  handleCameraViewChange view (rig (Some cam) (Some controls)) =
  rig (Some (fst (update cam controls))) (Some (snd (update cam controls))).
Proof.
  intros Hnot. unfold handleCameraViewChange. cbn [rigCamera controlsRef].
  rewrite (switchView_other _ _ _ Hnot). reflexivity.
Qed.

Lemma snapped_distance view :
  In view viewTags ->
  distanceToSquared (snappedPosition view) origin = Fin 64.
Proof.
  intros Hin. unfold viewTags in Hin. cbn [In] in Hin.
  pose proof sin2_cos2_polarEPS as Hsc.
  destruct Hin as [<- | [<- | [<- | [<- | [<- | [<- | []]]]]]];
    unfold snappedPosition, axisUnitVector;
    cbn [String.eqb Ascii.eqb Bool.eqb];
    unfold distanceToSquared, multiplyScalar, distance, origin, finVec;
    cbn [vx vy vz mul sub add neg]; apply Fin_eq; nra.
Qed.

Lemma snapped_on_axis view :
  view <> "top" -> view <> "bottom" ->
  snappedPosition view = multiplyScalar (axisUnitVector view) distance.
Proof.
  intros Ht Hb. unfold snappedPosition.
  destruct (String.eqb_spec view "top"); [contradiction|].
  destruct (String.eqb_spec view "bottom"); [contradiction|].
  reflexivity.
Qed.

(** C7, as the code has it.  For every one of the six view tags and every
    rig with a camera and controls, the switch puts the camera at
    [distance * axisUnitVector(view)] with [distance = 8] and the orbit
    target at the origin, and the handler then calls [update()] on the
    controls.  With the controls at rest the target is the origin after the
    handler and the camera is at distance 8 from it: on the axis of the
    view for front, back, left and right, and at the smallest polar angle
    from the y axis for top and bottom.  Handling the same tag a second
    time gives the same camera position and target again. *)
Theorem camera_snap :
  forall view cam controls,
    In view viewTags ->
    let r' := handleCameraViewChange view (rig (Some cam) (Some controls)) in
    distance = Fin 8 /\
    switchView view cam controls =
      (camera (multiplyScalar (axisUnitVector view) distance),
       setTarget controls origin) /\
    pose r' = snappedPose view /\
    (view <> "top" -> view <> "bottom" ->
       snappedPosition view = multiplyScalar (axisUnitVector view) distance) /\
    distanceToSquared (snappedPosition view) origin = Fin 64 /\
    pose (handleCameraViewChange view r') = pose r'.
Proof.
  intros view cam controls Hin r'. subst r'.
  rewrite (handle_view view cam controls Hin), (handle_view view _ _ Hin).
  split; [reflexivity|].
  split; [exact (switchView_canonical view cam controls Hin)|].
  split; [reflexivity|].
  split; [exact (snapped_on_axis view)|].
  split; [exact (snapped_distance view Hin) | reflexivity].
Qed.

Lemma top_is_view : In "top" viewTags.
Proof. unfold viewTags. cbn [In]. tauto. Qed.

(** C7 at the top view, from the camera where the canvas puts it. *)
Lemma camera_snap_top :
  In "top" viewTags /\
  pose (handleCameraViewChange "top" restingRig) =
    (Some (finVec 0 (8 * cos polarEPS) (8 * sin polarEPS)), Some origin) /\
  distanceToSquared (finVec 0 (8 * cos polarEPS) (8 * sin polarEPS)) origin
    = Fin 64.
Proof.
  split; [exact top_is_view|].
  pose proof (camera_snap "top" (camera (finVec 5 5 5)) (orbitControls zeros)
                top_is_view) as H.
  cbv zeta in H. destruct H as (_ & _ & Hpose & _ & Hdist & _).
  split; [exact Hpose | exact Hdist].
Defined.

(** C7 fails as stated: after the handler has run for the tag "top" the
    camera is not at [distance * axisUnitVector("top") = (0, 8, 0)] but off
    the y axis, at [(0, 8 cos EPS, 8 sin EPS)] with [EPS] the smallest
    polar angle of the controls. *)
Lemma top_snap_is_off_the_axis :
  pose (handleCameraViewChange "top" restingRig) =
    (Some (finVec 0 (8 * cos polarEPS) (8 * sin polarEPS)), Some origin) /\
  multiplyScalar (axisUnitVector "top") distance = finVec 0 8 0 /\
  pose (handleCameraViewChange "top" restingRig) <>
    (Some (multiplyScalar (axisUnitVector "top") distance), Some origin).
Proof.
  unfold restingRig. rewrite (handle_view "top" _ _ top_is_view).
  split; [reflexivity|].
  assert (Haxis : multiplyScalar (axisUnitVector "top") distance = finVec 0 8 0).
  { unfold axisUnitVector, multiplyScalar, distance, finVec. cbn.
    f_equal; apply Fin_eq; lra. }
  split; [exact Haxis|]. rewrite Haxis.
  unfold pose, snappedPosition, finVec. cbn.
  intros E. injection E as _ Ez.
  pose proof sin_polarEPS_pos. lra.
Qed.






(** ** Which corner the anchor is

    The stored offsets are the negated lower corner of the box before the
    model is moved into place, so the anchor need not be the lower corner
    of the box the group contains.  For the loaded cube that box is
    [-1..1] on each axis and the anchor [(1,1,1)] is its upper corner:
    without rotation, a change of scale from [(1,1,1)] to [(2,2,2)] moves
    the lower corner from [(-1,-1,-1)] to [(-3,-3,-3)]. *)
Lemma cube_lower_corner_moves :
  forall o g1 g2,
    model cubeState = Some o ->
    render cubeState (modelProps zeros ones zeros) = Some g1 ->
    render cubeState (modelProps zeros twos zeros) = Some g2 ->
    bmin (setFromObject o) = finVec (-1) (-1) (-1) /\
    localToWorld g1 (bmin (setFromObject o)) = finVec (-1) (-1) (-1) /\
    localToWorld g2 (bmin (setFromObject o)) = finVec (-3) (-3) (-3).
Proof.
  intros o g1 g2 Ho H1 H2.
  injection Ho as <-. injection H1 as <-. injection H2 as <-.
  rewrite setFromObject_finBox by lra.
  unfold localToWorld.
  cbn [groupPosition groupScale groupRotation propPosition propScale
       propRotation bmin finBox].
  rewrite toRadians_zero, rotation_zero.
  unfold addVectors, applyMatrix3, multiply, adjustedPosition, identityMatrix,
    cubeState, zeros, ones, twos, finVec; simpl.
  repeat split; f_equal; apply Fin_eq; lra.
Qed.

(** C1 at the cube of side 2, loaded and placed at the origin.  The
    comments of [Model] promise that a change of scale keeps the
    bottom-left-front corner fixed.  Without rotation, going from scale
    [(1,1,1)] to scale [(2,2,2)] moves the bottom-left-front corner of the
    box of the model from [(-1,-1,-1)] to [(-3,-3,-3)]; turned by 180
    degrees about the x axis, the same change of scale moves the anchor
    point [(leftX, bottomY, frontZ)] itself from [(1,-1,-1)] to
    [(1,-3,-3)]. *)
Theorem anchor_corner_moves_with_scale :
  let st := normalize (rawObject cube) in
  (exists o g1 g2,
     model st = Some o /\
     render st (modelProps zeros ones zeros) = Some g1 /\
     render st (modelProps zeros twos zeros) = Some g2 /\
     bmin (setFromObject o) = finVec (-1) (-1) (-1) /\
     localToWorld g1 (bmin (setFromObject o)) = finVec (-1) (-1) (-1) /\
     localToWorld g2 (bmin (setFromObject o)) = finVec (-3) (-3) (-3)) /\
  anchorInWorld st (modelProps zeros ones halfTurnX)
    = Some (finVec 1 (-1) (-1)) /\
  anchorInWorld st (modelProps zeros twos halfTurnX)
    = Some (finVec 1 (-3) (-3)) /\
  anchorInWorld st (modelProps zeros ones halfTurnX) <>
  anchorInWorld st (modelProps zeros twos halfTurnX).
Proof.
  intros st. split; [|exact anchor_moves_under_rotation].
  subst st. rewrite normalize_cube.
  do 3 eexists. split; [reflexivity|]. split; [reflexivity|].
  split; [reflexivity|].
  apply cube_lower_corner_moves; reflexivity.
Qed.

(** * Further properties of the code *)

(** ** Where normalisation puts the model *)

Lemma positive_maxDim_inv n m :
  maxDimOf (rawObject n) = Fin m -> 0 < m ->
  exists lx ly lz hx hy hz,
    n = rawNode (finBox lx ly lz hx hy hz) /\
    lx <= hx /\ ly <= hy /\ lz <= hz /\
    m = largest (hx - lx) (hy - ly) (hz - lz).
Proof.
  intros Hm Hpos.
  destruct (positive_maxDim_properBox n m Hm Hpos)
    as (lx & ly & lz & hx & hy & hz & HB & Hx & Hy & Hz).
  destruct n as [B]. cbn [rawBounds] in HB. subst B.
  rewrite rawObject_finBox, maxDimOf_finBox in Hm by (assumption || lra).
  injection Hm as Hm. rewrite Rmult_1_l in Hm.
  exists lx, ly, lz, hx, hy, hz. repeat split; auto.
Qed.

Lemma Rlt_0_100 : 0 < 100.
Proof. lra. Qed.

Lemma maxDimOf_crate : maxDimOf (rawObject crate) = Fin 4.
Proof.
  unfold crate. rewrite rawObject_finBox, maxDimOf_finBox by lra.
  rewrite largest_crate. apply Fin_eq. lra.
Qed.

(** X1.  For every raw node with a positive finite [maxDim], the box of the
    normalised node has its bottom at [y = -1], the height of the grid, and
    its centre at [x = 0] and [z = 0]. *)
Theorem normalized_stands_on_grid :
  forall n m,
    maxDimOf (rawObject n) = Fin m -> 0 < m ->
    exists o,
      model (normalize (rawObject n)) = Some o /\
      vy (bmin (setFromObject o)) = Fin (-1) /\
      vx (getCenter (setFromObject o)) = Fin 0 /\
      vz (getCenter (setFromObject o)) = Fin 0.
Proof.
  intros n m Hm Hpos.
  destruct (positive_maxDim_inv n m Hm Hpos)
    as (lx & ly & lz & hx & hy & hz & -> & Hx & Hy & Hz & Hl).
  assert (Hk : 0 < 2 / m) by (apply Rdiv_lt_0_compat; lra).
  rewrite (normalize_finBox lx ly lz hx hy hz m) by assumption.
  eexists. split; [reflexivity|].
  rewrite setFromObject_finBox by (assumption || lra).
  rewrite getCenter_finBox by nra.
  unfold finBox, finVec; cbn [bmin bmax vx vy vz].
  repeat split; apply Fin_eq; lra.
Qed.

(** X1 at the crate. *)
Lemma normalized_stands_on_grid_crate :
  maxDimOf (rawObject crate) = Fin 4 /\ 0 < 4 /\
  exists o,
    model (normalize (rawObject crate)) = Some o /\
    vy (bmin (setFromObject o)) = Fin (-1) /\
    vx (getCenter (setFromObject o)) = Fin 0 /\
    vz (getCenter (setFromObject o)) = Fin 0.
Proof.
  split; [exact maxDimOf_crate|]. split; [exact Rlt_0_4|].
  exact (normalized_stands_on_grid crate 4 maxDimOf_crate Rlt_0_4).
Defined.

Lemma inUnit_finBox u lx ly lz hx hy hz :
  inUnit u (rawNode (finBox lx ly lz hx hy hz)) =
  rawNode (finBox (lx * u) (ly * u) (lz * u) (hx * u) (hy * u) (hz * u)).
Proof. reflexivity. Qed.

Lemma largest_unit u a b c a' b' c' :
  0 <= u -> a' = u * a -> b' = u * b -> c' = u * c ->
  largest a' b' c' = u * largest a b c.
Proof. intros Hu -> -> ->. apply largest_scale. exact Hu. Qed.

(** X2.  Normalisation does not depend on the unit of the asset: for a raw
    node with positive finite [maxDim] and every factor [u > 0], the same
    scene with all coordinates multiplied by [u] gets the same three stored
    offsets, the same node position and the same bounding box. *)
Theorem normalize_unit_free :
  forall n m u,
    maxDimOf (rawObject n) = Fin m -> 0 < m -> 0 < u ->
    let st := normalize (rawObject n) in
    let st' := normalize (rawObject (inUnit u n)) in
    originalLeftX st' = originalLeftX st /\
    originalBottomY st' = originalBottomY st /\
    originalFrontZ st' = originalFrontZ st /\
    exists o o',
      model st = Some o /\ model st' = Some o' /\
      objPosition o' = objPosition o /\
      setFromObject o' = setFromObject o.
Proof.
  intros n m u Hm Hpos Hu.
  destruct (positive_maxDim_inv n m Hm Hpos)
    as (lx & ly & lz & hx & hy & hz & -> & Hx & Hy & Hz & Hl).
  assert (Hk : 0 < 2 / m) by (apply Rdiv_lt_0_compat; lra).
  assert (Hmu : 0 < u * m) by (apply Rmult_lt_0_compat; assumption).
  assert (Hk' : 0 < 2 / (u * m)) by (apply Rdiv_lt_0_compat; lra).
  cbv zeta. rewrite inUnit_finBox.
  rewrite (normalize_finBox lx ly lz hx hy hz m) by assumption.
  rewrite (normalize_finBox (lx * u) (ly * u) (lz * u) (hx * u) (hy * u)
             (hz * u) (u * m));
    try nra;
    [| rewrite Hl; symmetry; apply largest_unit; lra].
  cbn [originalLeftX originalBottomY originalFrontZ model].
  assert (E : forall c, 2 / (u * m) * (c * u) = 2 / m * c).
  { intros c. field. lra. }
  repeat split; try (apply Fin_eq; rewrite E; reflexivity).
  do 2 eexists. split; [reflexivity|]. split; [reflexivity|].
  cbn [objPosition].
  rewrite !setFromObject_finBox by (nra || lra).
  rewrite !E. split; reflexivity.
Qed.

(** X2 at the crate, in metres and in centimetres. *)
Lemma normalize_unit_free_crate :
  maxDimOf (rawObject crate) = Fin 4 /\ 0 < 4 /\ 0 < 100 /\
  originalLeftX (normalize (rawObject (inUnit 100 crate))) =
  originalLeftX (normalize (rawObject crate)).
Proof.
  split; [exact maxDimOf_crate|]. split; [exact Rlt_0_4|].
  split; [exact Rlt_0_100|].
  exact (proj1 (normalize_unit_free crate 4 100 maxDimOf_crate Rlt_0_4
                  Rlt_0_100)).
Defined.

(** X3.  For a scene with finite bounds and positive [maxDim = m], the
    anchor [(leftX, bottomY, frontZ)] is the lower corner of the box of the
    normalised node exactly when the raw bounds satisfy [hx = 3 lx],
    [2 ly = m] and [hz = 3 lz]; for every other scene the point that stays
    in place under scaling is not that corner. *)
Theorem anchor_is_lower_corner_iff :
  forall lx ly lz hx hy hz m,
    lx <= hx -> ly <= hy -> lz <= hz ->
    m = largest (hx - lx) (hy - ly) (hz - lz) -> 0 < m ->
    let st := normalize (rawObject (rawNode (finBox lx ly lz hx hy hz))) in
    exists o,
      model st = Some o /\
      (anchorPoint st = bmin (setFromObject o) <->
       hx = 3 * lx /\ 2 * ly = m /\ hz = 3 * lz).
Proof.
  intros lx ly lz hx hy hz m Hx Hy Hz Hl Hpos.
  assert (Hk : 0 < 2 / m) by (apply Rdiv_lt_0_compat; lra).
  cbv zeta. rewrite (normalize_finBox lx ly lz hx hy hz m) by assumption.
  eexists. split; [reflexivity|].
  rewrite setFromObject_finBox by (assumption || lra).
  unfold anchorPoint, finBox, finVec.
  cbn [originalLeftX originalBottomY originalFrontZ bmin].
  assert (Hm : 2 / m * m = 2) by (field; lra).
  split.
  - intros E. injection E as Ex Ey Ez.
    assert (Ex' : 2 / m * (hx - 3 * lx) = 0) by lra.
    assert (Ez' : 2 / m * (hz - 3 * lz) = 0) by lra.
    assert (Ey' : 2 / m * (m - 2 * ly) = 0) by lra.
    apply Rmult_integral in Ex' as [Ex' | Ex']; [lra|].
    apply Rmult_integral in Ey' as [Ey' | Ey']; [lra|].
    apply Rmult_integral in Ez' as [Ez' | Ez']; [lra|].
    lra.
  - intros (Ex & Ey & Ez). subst hx hz.
    f_equal; apply Fin_eq; try lra.
    replace ly with (m / 2) by lra. field. lra.
Qed.

Lemma largest_cornerCube : 2 = largest (3 - 1) (3 - 1) (3 - 1).
Proof.
  unfold largest, Rmax.
  repeat match goal with
  | |- context [Rle_dec ?a ?b] => destruct (Rle_dec a b)
  end; lra.
Qed.

Lemma Rle_1_3 : 1 <= 3.
Proof. lra. Qed.

(** X3 at the cube with its lower corner at [(1,1,1)]. *)
Lemma anchor_is_lower_corner_iff_cornerCube :
  exists o,
    model (normalize (rawObject cornerCube)) = Some o /\
    (anchorPoint (normalize (rawObject cornerCube)) = bmin (setFromObject o)
     <-> 3 = 3 * 1 /\ 2 * 1 = 2 /\ 3 = 3 * 1).
Proof.
  exact (anchor_is_lower_corner_iff 1 1 1 3 3 3 2 Rle_1_3 Rle_1_3 Rle_1_3
           largest_cornerCube Rlt_0_2).
Defined.

(** ** The group transform *)

Lemma add_add_fin_eq p a1 b1 a2 b2 :
  a1 + b1 = a2 + b2 ->
  add (add p (Fin a1)) (Fin b1) = add (add p (Fin a2)) (Fin b2).
Proof.
  intros H. rewrite (add_add_fin p a1 b1 (a1 + b1)) by reflexivity.
  rewrite (add_add_fin p a2 b2 (a1 + b1)) by (symmetry; exact H).
  reflexivity.
Qed.

Lemma add_fin_zero p r : r = 0 -> add p (Fin r) = p.
Proof. intros ->. destruct p; simpl; auto. apply Fin_eq; lra. Qed.

Lemma toRadians_finVec a b c :
  toRadians (finVec a b c) =
  finVec (a * PI / 180) (b * PI / 180) (c * PI / 180).
Proof.
  unfold toRadians, finVec, Math_PI; cbn [vx vy vz mul].
  rewrite !div_fin by lra. reflexivity.
Qed.

(** X4.  Without rotation the transform of the rendered group is the
    dilation by [scale] about the anchor: for finite stored offsets, scale
    and point [v], the image of [v] is
    [position + anchor + scale * (v - anchor)]. *)
Theorem scaling_is_dilation_about_anchor :
  forall st o position s v,
    model st = Some o ->
    finiteMetrics st = true -> finiteVector s = true ->
    finiteVector v = true ->
    exists g,
      render st (modelProps position s zeros) = Some g /\
      localToWorld g v =
      addVectors (addVectors position (anchorPoint st))
                 (multiply s (subVectors v (anchorPoint st))).
Proof.
  intros st o position s v Ho Hfin Hs Hv.
  unfold render. rewrite Ho. eexists. split; [reflexivity|].
  apply finiteMetrics_inv in Hfin as (a & b & c & Ha & Hb & Hc).
  apply finiteVector_inv in Hs as (sx & sy & sz & ->).
  apply finiteVector_inv in Hv as (x & y & z & ->).
  unfold localToWorld.
  cbn [groupPosition groupScale groupRotation propPosition propScale
       propRotation].
  rewrite toRadians_zero, rotation_zero.
  unfold anchorPoint, adjustedPosition. rewrite Ha, Hb, Hc.
  destruct position as [px py pz].
  unfold addVectors, applyMatrix3, multiply, subVectors, identityMatrix,
    finVec; simpl.
  f_equal; apply add_add_fin_eq; lra.
Qed.

(** X4 at the loaded cube: scale [(2,2,2)] and the corner [(-1,-1,-1)]. *)
Lemma scaling_is_dilation_about_anchor_cube :
  exists g,
    render cubeState (modelProps zeros twos zeros) = Some g /\
    localToWorld g (finVec (-1) (-1) (-1)) =
    addVectors (addVectors zeros (anchorPoint cubeState))
               (multiply twos
                  (subVectors (finVec (-1) (-1) (-1)) (anchorPoint cubeState))).
Proof.
  exact (scaling_is_dilation_about_anchor cubeState _ zeros twos
           (finVec (-1) (-1) (-1)) eq_refl eq_refl eq_refl eq_refl).
Defined.

(** X5.  The position prop acts as a translation whatever the scale and
    the rotation: for finite stored offsets, scale, rotation and point [v],
    the image of [v] under the group rendered at [position] is [position]
    plus its image under the group rendered at the origin. *)
Theorem position_is_a_translation :
  forall st o position s rotation v,
    model st = Some o ->
    finiteMetrics st = true -> finiteVector s = true ->
    finiteVector rotation = true -> finiteVector v = true ->
    exists g g0,
      render st (modelProps position s rotation) = Some g /\
      render st (modelProps zeros s rotation) = Some g0 /\
      localToWorld g v = addVectors position (localToWorld g0 v).
Proof.
  intros st o position s rotation v Ho Hfin Hs Hr Hv.
  unfold render. rewrite Ho. do 2 eexists.
  split; [reflexivity|]. split; [reflexivity|].
  apply finiteMetrics_inv in Hfin as (a & b & c & Ha & Hb & Hc).
  apply finiteVector_inv in Hs as (sx & sy & sz & ->).
  apply finiteVector_inv in Hr as (rx & ry & rz & ->).
  apply finiteVector_inv in Hv as (x & y & z & ->).
  unfold localToWorld.
  cbn [groupPosition groupScale groupRotation propPosition propScale
       propRotation].
  rewrite toRadians_finVec.
  unfold adjustedPosition. rewrite Ha, Hb, Hc.
  destruct position as [px py pz].
  unfold addVectors, applyMatrix3, multiply, makeRotationFromEuler, zeros,
    finVec; simpl.
  f_equal; apply add_add_fin; ring.
Qed.

(** X5 at the loaded cube, turned and scaled. *)
Lemma position_is_a_translation_cube :
  exists g g0,
    render cubeState (modelProps ones twos halfTurnX) = Some g /\
    render cubeState (modelProps zeros twos halfTurnX) = Some g0 /\
    localToWorld g ones = addVectors ones (localToWorld g0 ones).
Proof.
  exact (position_is_a_translation cubeState _ ones twos halfTurnX ones
           eq_refl eq_refl eq_refl eq_refl eq_refl).
Defined.

Lemma full_turn_radians a (k : nat) :
  (a + 360 * INR k) * PI / 180 = a * PI / 180 + 2 * INR k * PI.
Proof. field. Qed.

(** X6.  Whole turns do not change the rotation of the group: adding any
    number of times 360 degrees to each of the three rotation values gives
    the same rotation matrix; so the two ends -180 and 180 of a rotation
    slider show the same orientation. *)
Theorem full_turns_change_nothing :
  forall a b c (i j k : nat),
    makeRotationFromEuler
      (toRadians (finVec (a + 360 * INR i) (b + 360 * INR j)
                         (c + 360 * INR k))) =
    makeRotationFromEuler (toRadians (finVec a b c)).
Proof.
  intros a b c i j k. rewrite !toRadians_finVec, !full_turn_radians.
  unfold makeRotationFromEuler, finVec; cbn [vx vy vz jscos jssin].
  rewrite !cos_period, !sin_period. reflexivity.
Qed.

(** ** The snapshot that centres the model *)

Lemma uniformScale_finBox lx ly lz hx hy hz m :
  lx <= hx -> ly <= hy -> lz <= hz ->
  m = largest (hx - lx) (hy - ly) (hz - lz) -> 0 < m ->
  uniformScale (rawObject (rawNode (finBox lx ly lz hx hy hz))) = Fin (2 / m).
Proof.
  intros Hx Hy Hz Hm Hpos. unfold uniformScale.
  rewrite rawObject_finBox, maxDimOf_finBox by (assumption || lra).
  rewrite <- Hm, Rmult_1_l. apply div_fin. lra.
Qed.

Lemma earlier_normalize_finBox lx ly lz hx hy hz m :
  lx <= hx -> ly <= hy -> lz <= hz ->
  m = largest (hx - lx) (hy - ly) (hz - lz) -> 0 < m ->
  EarlierModelViewer.normalize
    (rawObject (rawNode (finBox lx ly lz hx hy hz))) =
  object3D (finVec (- ((lx + hx) / 2) * (2 / m))
                   (- ((ly + hy) / 2) * (2 / m))
                   (- ((lz + hz) / 2) * (2 / m)))
           (setScalar (Fin (2 / m)))
           (finBox lx ly lz hx hy hz).
Proof.
  intros Hx Hy Hz Hm Hpos. unfold EarlierModelViewer.normalize.
  rewrite (uniformScale_finBox lx ly lz hx hy hz m) by assumption.
  rewrite rawObject_finBox, setFromObject_finBox by (assumption || lra).
  rewrite getCenter_finBox by lra.
  unfold Three.withPosition, Three.withScale, multiplyScalar, subVectors,
    finVec, finBox; cbn.
  f_equal. f_equal; apply Fin_eq; lra.
Qed.

(** X7.  In the snapshot without stored offsets, for every raw node with a
    positive finite [maxDim = m] the normalised node has scale [2 / m], a
    box centred at the origin and largest extent exactly [2]. *)
Theorem earlier_normalize_centres :
  forall n m,
    maxDimOf (rawObject n) = Fin m -> 0 < m ->
    let o := EarlierModelViewer.normalize (rawObject n) in
    objScale o = setScalar (Fin (2 / m)) /\
    getCenter (setFromObject o) = finVec 0 0 0 /\
    maxDimOf o = Fin 2.
Proof.
  intros n m Hm Hpos.
  destruct (positive_maxDim_inv n m Hm Hpos)
    as (lx & ly & lz & hx & hy & hz & -> & Hx & Hy & Hz & Hl).
  assert (Hk : 0 < 2 / m) by (apply Rdiv_lt_0_compat; lra).
  cbv zeta.
  rewrite (earlier_normalize_finBox lx ly lz hx hy hz m) by assumption.
  split; [reflexivity|]. split.
  - rewrite setFromObject_finBox by (assumption || lra).
    rewrite getCenter_finBox by nra.
    unfold finVec. f_equal; apply Fin_eq; lra.
  - rewrite maxDimOf_finBox by (assumption || lra).
    apply Fin_eq. rewrite <- Hl. field. lra.
Qed.

(** X7 at the crate. *)
Lemma earlier_normalize_centres_crate :
  maxDimOf (rawObject crate) = Fin 4 /\ 0 < 4 /\
  getCenter (setFromObject (EarlierModelViewer.normalize (rawObject crate)))
    = finVec 0 0 0 /\
  maxDimOf (EarlierModelViewer.normalize (rawObject crate)) = Fin 2.
Proof.
  split; [exact maxDimOf_crate|]. split; [exact Rlt_0_4|].
  exact (proj2 (earlier_normalize_centres crate 4 maxDimOf_crate Rlt_0_4)).
Defined.

(** X8.  In the snapshot without stored offsets the model scales about the
    centre of its box: for every raw node with positive finite [maxDim],
    every position and every finite scale, the centre of the box of the
    normalised node is shown at [position]. *)
Theorem earlier_scaling_keeps_centre :
  forall n m position scale,
    maxDimOf (rawObject n) = Fin m -> 0 < m ->
    finiteVector scale = true ->
    let o := EarlierModelViewer.normalize (rawObject n) in
    exists g,
      EarlierModelViewer.render (Some o) position scale = Some g /\
      localToWorld g (getCenter (setFromObject o)) = position.
Proof.
  intros n m position scale Hm Hpos Hs.
  destruct (positive_maxDim_inv n m Hm Hpos)
    as (lx & ly & lz & hx & hy & hz & -> & Hx & Hy & Hz & Hl).
  assert (Hk : 0 < 2 / m) by (apply Rdiv_lt_0_compat; lra).
  apply finiteVector_inv in Hs as (sx & sy & sz & ->).
  cbv zeta.
  rewrite (earlier_normalize_finBox lx ly lz hx hy hz m) by assumption.
  eexists. split; [reflexivity|].
  rewrite setFromObject_finBox by (assumption || lra).
  rewrite getCenter_finBox by nra.
  unfold localToWorld. cbn [groupPosition groupScale groupRotation].
  change (vec3 (Fin 0) (Fin 0) (Fin 0)) with zeros. rewrite rotation_zero.
  destruct position as [px py pz].
  unfold addVectors, applyMatrix3, multiply, identityMatrix, finVec; simpl.
  f_equal; apply add_fin_zero; lra.
Qed.

(** X8 at the crate, placed at [(1,1,1)] with scale [(2,2,2)]. *)
Lemma earlier_scaling_keeps_centre_crate :
  exists g,
    EarlierModelViewer.render
      (Some (EarlierModelViewer.normalize (rawObject crate))) ones twos
      = Some g /\
    localToWorld g
      (getCenter
         (setFromObject (EarlierModelViewer.normalize (rawObject crate))))
      = ones.
Proof.
  exact (earlier_scaling_keeps_centre crate 4 ones twos maxDimOf_crate
           Rlt_0_4 eq_refl).
Defined.

(** ** Which loader runs *)

Lemma loadable_false format :
  loadable format = false ->
  (toLowerCase format =? "gltf") = false /\
  (toLowerCase format =? "glb") = false /\
  (toLowerCase format =? "fbx") = false.
Proof.
  unfold loadable. intros H.
  apply orb_false_elim in H as [H Hfbx]. apply orb_false_elim in H as [H1 H2].
  auto.
Qed.

(** X9.  A format that is none of gltf, glb and fbx after lower-casing
    reaches no loader: whatever the loaders would do, [loadModel] leaves the
    state as it was and logs one [Error], with the message that IFC is
    disabled for the format ifc and "Unsupported format: " followed by the
    format as it was given for every other one. *)
Theorem unsupported_format_reaches_no_loader :
  forall env env' url format st,
    loadable format = false ->
    exists msg,
      loadModel env url format st = (st, Some (ErrorObj msg)) /\
      loadModel env' url format st = (st, Some (ErrorObj msg)) /\
      msg = (if toLowerCase format =? "ifc" then ifcDisabledMessage
             else "Unsupported format: " ++ format).
Proof.
  intros env env' url format st H.
  apply loadable_false in H as (H1 & H2 & H3).
  unfold loadModel, loadByFormat. cbv zeta. rewrite H1, H2, H3. cbn [orb].
  destruct (toLowerCase format =? "ifc"); eexists; repeat split.
Qed.

(** X9 at the format "OBJ". *)
Lemma unsupported_format_reaches_no_loader_obj :
  loadable "OBJ" = false /\
  exists msg,
    loadModel brokenLoaders "blob:1" "OBJ" initialModelState
      = (initialModelState, Some (ErrorObj msg)) /\
    loadModel crateLoaders "blob:1" "OBJ" initialModelState
      = (initialModelState, Some (ErrorObj msg)) /\
    msg = "Unsupported format: OBJ".
Proof.
  split; [reflexivity|].
  exact (unsupported_format_reaches_no_loader brokenLoaders crateLoaders
           "blob:1" "OBJ" initialModelState eq_refl).
Defined.

(** X10.  A freshly mounted [Model] holds a model only when the loader of
    its format resolved: then nothing was logged, the format is gltf or glb
    (any case) with the glTF loader resolved, or fbx with the FBX loader
    resolved, and the state is the normalisation of the resolved scene. *)
Theorem model_only_from_resolved_loader :
  forall env url format o,
    model (fst (loadModel env url format initialModelState)) = Some o ->
    snd (loadModel env url format initialModelState) = None /\
    exists n,
      fst (loadModel env url format initialModelState)
        = normalize (rawObject n) /\
      ((toLowerCase format = "gltf" \/ toLowerCase format = "glb") /\
         gltfLoad env url = GltfResolved n \/
       toLowerCase format = "fbx" /\ fbxLoad env url = FbxResolved n).
Proof.
  intros env url format o. unfold loadModel, loadByFormat. cbv zeta.
  destruct (String.eqb_spec (toLowerCase format) "gltf") as [Eg|_];
    [|destruct (String.eqb_spec (toLowerCase format) "glb") as [Eb|_]];
    cbn [orb].
  - destruct (gltfLoad env url) as [n|e]; cbn [fst snd model];
      [|discriminate].
    intros _. split; [reflexivity|]. exists n. split; [reflexivity|].
    left. auto.
  - destruct (gltfLoad env url) as [n|e]; cbn [fst snd model];
      [|discriminate].
    intros _. split; [reflexivity|]. exists n. split; [reflexivity|].
    left. auto.
  - destruct (String.eqb_spec (toLowerCase format) "fbx") as [Ef|_].
    + destruct (fbxLoad env url) as [n|e|e]; cbn [loadFbx fst snd model];
        try discriminate.
      intros _. split; [reflexivity|]. exists n. split; [reflexivity|].
      right. auto.
    + destruct (toLowerCase format =? "ifc"); cbn [fst model]; discriminate.
Qed.

(** X10 at a file with the format "GLB" whose scene is the crate. *)
Lemma model_only_from_resolved_loader_crate :
  snd (loadModel crateLoaders "blob:1" "GLB" initialModelState) = None.
Proof.
  exact (proj1 (model_only_from_resolved_loader crateLoaders "blob:1" "GLB"
                  _ eq_refl)).
Defined.

(** X11.  A failure of the FBX loader that does not mention the version is
    logged with the generic prefix twice when it came through the
    [onError] callback, which adds the prefix before the surrounding
    [catch] adds it again, and once when the loader threw an [Error]. *)
Theorem generic_fbx_message_prefixes :
  forall error,
    mentionsVersion (errMessage error) = false ->
    loadFbx (FbxOnError error) =
      Threw (ErrorObj (fbxFailedPrefix ++ fbxFailedPrefix ++
                       messageOrUnknown (errMessage error))) /\
    forall m,
      includes m versionNotSupported = false ->
      loadFbx (FbxThrew (ErrorObj m)) = Threw (ErrorObj (fbxFailedPrefix ++ m)).
Proof.
  intros [[m|]] H; cbn [errMessage mentionsVersion] in H; split;
    try (intros m' Hm'; cbn [loadFbx]; rewrite fbxCatch_generic by exact Hm';
         reflexivity).
  - cbn [loadFbx]. unfold fbxOnError. cbn [errMessage].
    rewrite H, andb_false_r.
    rewrite fbxCatch_generic; [reflexivity|].
    rewrite includes_after_prefix. unfold messageOrUnknown.
    destruct (truthy m); [exact H | reflexivity].
  - reflexivity.
Qed.

(** X11 at a truncated file. *)
Lemma generic_fbx_message_prefixes_truncated :
  mentionsVersion (errMessage truncatedFile) = false /\
  loadFbx (FbxOnError truncatedFile) =
    Threw (ErrorObj
             "FBX loading failed: FBX loading failed: Unexpected end of file").
Proof.
  split; [reflexivity|].
  exact (proj1 (generic_fbx_message_prefixes truncatedFile eq_refl)).
Defined.

Lemma loadByFormat_studio env objectUrl fmt :
  loadByFormat env objectUrl (formatString fmt) =
  match gltfLoad env objectUrl with
  | GltfResolved scene => Returned scene
  | GltfRejected error => Threw error
  end.
Proof. destruct fmt; reflexivity. Qed.

(** X12.  Every record of the studio is loaded by the glTF loader alone:
    what the viewer's [Model] ends with for a placed model is decided by
    what the glTF loader does with its url, and two sets of loaders that
    agree there give the same result, whatever their FBX loaders do. *)
Theorem studio_models_take_the_gltf_loader :
  forall env env' m,
    gltfLoad env (url m) = gltfLoad env' (url m) ->
    mountModel env m = mountModel env' m /\
    loadByFormat env (url m) (formatString (format m)) =
      match gltfLoad env (url m) with
      | GltfResolved scene => Returned scene
      | GltfRejected error => Threw error
      end.
Proof.
  intros env env' m H. unfold mountModel, loadModel.
  rewrite !loadByFormat_studio, H. split; reflexivity.
Qed.

(** X12 at two sets of loaders that differ on FBX only. *)
Lemma studio_models_take_the_gltf_loader_crate :
  mountModel crateLoaders
    (placedModel "a" "chair.glb" "blob:a" glb zeros ones zeros) =
  mountModel crateGltfLoaders
    (placedModel "a" "chair.glb" "blob:a" glb zeros ones zeros).
Proof.
  exact (proj1 (studio_models_take_the_gltf_loader crateLoaders
                  crateGltfLoaders
                  (placedModel "a" "chair.glb" "blob:a" glb zeros ones zeros)
                  eq_refl)).
Defined.

(** ** The selected model *)

Lemma isSelected_editOf sel f axis value m :
  isSelected sel (editOf f axis value m) = isSelected sel m.
Proof. destruct f; reflexivity. Qed.

Lemma find_none_iff {A} (p : A -> bool) l :
  find p l = None <-> forall x, In x l -> p x = false.
Proof.
  split; [apply find_none|].
  induction l as [|a l IH]; intros H; [reflexivity|].
  cbn [find]. rewrite (H a) by (left; reflexivity).
  apply IH. intros x Hx. apply H. right; exact Hx.
Qed.

Lemma find_app_last {A} (p : A -> bool) l x :
  find p l = None -> p x = true -> find p (l ++ [x]) = Some x.
Proof.
  induction l as [|a l IH]; cbn [find app]; intros Hn Hx.
  - rewrite Hx. reflexivity.
  - destruct (p a); [discriminate | auto].
Qed.

Lemma find_map_edit {A} (p : A -> bool) (h : A -> A) l :
  (forall m, p (h m) = p m) ->
  find p (map (fun m => if p m then h m else m) l) = option_map h (find p l).
Proof.
  intros Hp. induction l as [|a l IH]; [reflexivity|].
  cbn [map find]. destruct (p a) eqn:Ea.
  - rewrite Hp, Ea. reflexivity.
  - rewrite Ea. exact IH.
Qed.

Lemma NoDup_map_inj {A B} (f : A -> B) l x y :
  NoDup (map f l) -> In x l -> In y l -> f x = f y -> x = y.
Proof.
  induction l as [|a l IH]; cbn [map]; intros Hnd Hx Hy E; [destruct Hx|].
  inversion Hnd as [|? ? Ha Hl]; subst.
  destruct Hx as [<- | Hx], Hy as [<- | Hy].
  - reflexivity.
  - exfalso. apply Ha. rewrite E. apply in_map. exact Hy.
  - exfalso. apply Ha. rewrite <- E. apply in_map. exact Hx.
  - apply IH; assumption.
Qed.

Lemma NoDup_snoc {A} (l : list A) x : NoDup l -> ~ In x l -> NoDup (l ++ [x]).
Proof.
  induction l as [|a l IH]; intros Hl Hx; cbn [app].
  - constructor; [intros []|constructor].
  - inversion Hl as [|? ? Ha Hl']; subst. constructor.
    + intros Hin. apply in_app_or in Hin as [Hin | [<- | []]].
      * exact (Ha Hin).
      * apply Hx. left; reflexivity.
    + apply IH; [exact Hl'|]. intros Hin. apply Hx. right; exact Hin.
Qed.

Lemma selected_setSelected f axis value st :
  selected (setSelected f axis value st) =
  option_map (editOf f axis value) (selected st).
Proof.
  rewrite setSelected_map. unfold selected. cbn [models selectedId].
  apply find_map_edit. intros m. apply isSelected_editOf.
Qed.

Lemma selected_some st m :
  selected st = Some m -> In m (models st) /\ selectedId st = Some (id m).
Proof.
  unfold selected. intros H. apply find_some in H as [Hin Hs].
  split; [exact Hin|]. apply isSelected_iff. exact Hs.
Qed.

Lemma accepted_import fl objectUrl newId st :
  accepted fl = true ->
  exists fmt,
    handleImport (Some fl) objectUrl newId st =
    (studio (models st ++
               [placedModel newId (fileName fl) objectUrl fmt zeros ones zeros])
            (Some newId), None).
Proof.
  unfold accepted, handleImport. cbv zeta. intros H.
  apply orb_true_iff in H.
  assert (E : negb (endsWith (toLowerCase (fileName fl)) ".gltf") &&
              negb (endsWith (toLowerCase (fileName fl)) ".glb") = false).
  { destruct H as [-> | ->]; [reflexivity | apply andb_false_r]. }
  rewrite E. eexists. reflexivity.
Qed.

Lemma no_id_in_emptyStudio newId : ~ In newId (map id (models emptyStudio)).
Proof. intros []. Qed.

(** X13.  An accepted import under an id that no placed model has keeps
    every earlier record at its place, appends one record, and makes that
    record the selected one; the record carries the id, the file name as it
    was given and the url, with position [(0,0,0)], scale [(1,1,1)] and
    rotation [(0,0,0)]. *)
Theorem import_selects_new_record :
  forall fl objectUrl newId st,
    accepted fl = true ->
    ~ In newId (map id (models st)) ->
    let st' := fst (handleImport (Some fl) objectUrl newId st) in
    (forall k m, nth_error (models st) k = Some m ->
                 nth_error (models st') k = Some m) /\
    exists item,
      models st' = (models st ++ [item])%list /\
      selected st' = Some item /\
      id item = newId /\ name item = fileName fl /\ url item = objectUrl /\
      position item = zeros /\ scale item = ones /\ rotation item = zeros.
Proof.
  intros fl objectUrl newId st Hacc Hfresh.
  destruct (accepted_import fl objectUrl newId st Hacc) as [fmt E].
  cbv zeta. rewrite E. cbn [fst models].
  split.
  - intros k m Hk. rewrite nth_error_app1; [exact Hk|].
    apply nth_error_Some. congruence.
  - eexists. split; [reflexivity|]. split; [|repeat split].
    unfold selected. cbn [models selectedId].
    apply find_app_last.
    + apply find_none_iff. intros x Hx.
      destruct (isSelected (Some newId) x) eqn:Ex; [|reflexivity].
      apply isSelected_iff in Ex. injection Ex as ->.
      exfalso. apply Hfresh. apply in_map. exact Hx.
    + cbn. apply String.eqb_refl.
Qed.

(** X13 at the first import of a session. *)
Lemma import_selects_new_record_first :
  accepted (file "Chair.GLB") = true /\
  exists item,
    selected
      (fst (handleImport (Some (file "Chair.GLB")) "blob:1" "id-1"
              emptyStudio))
      = Some item /\
    id item = "id-1" /\ name item = "Chair.GLB".
Proof.
  split; [reflexivity|].
  destruct (proj2 (import_selects_new_record (file "Chair.GLB") "blob:1"
                     "id-1" emptyStudio eq_refl
                     (no_id_in_emptyStudio "id-1")))
    as (item & _ & Hsel & Hid & Hname & _).
  exists item. repeat split; assumption.
Defined.

(** X14.  While the ids of the placed models are pairwise different, the
    click on the [k]-th item of the list makes that very record the
    selected one and leaves the list as it is. *)
Theorem click_selects_item :
  forall st k it,
    NoDup (map id (models st)) ->
    nth_error (models st) k = Some it ->
    selected (step (Select k) st) = Some it /\
    models (step (Select k) st) = models st.
Proof.
  intros st k it Hnd Hk. cbn [step]. rewrite Hk.
  split; [|reflexivity].
  unfold selected, selectModel. cbn [models selectedId].
  pose proof (nth_error_In _ _ Hk) as Hin.
  destruct (find (isSelected (Some (id it))) (models st)) as [x|] eqn:Ef.
  - apply find_some in Ef as [Hx Hs]. apply isSelected_iff in Hs.
    injection Hs as Hs. f_equal.
    apply (NoDup_map_inj id (models st)); auto.
  - exfalso. pose proof (proj1 (find_none_iff _ _) Ef it Hin) as Hf.
    cbn in Hf. rewrite String.eqb_refl in Hf. discriminate.
Qed.

Lemma NoDup_twoModels : NoDup (map id (models twoModels)).
Proof.
  cbn. constructor.
  - intros [H | []]. discriminate.
  - constructor; [intros [] | constructor].
Qed.

(** X14 at a click on the first of two models. *)
Lemma click_selects_item_first :
  NoDup (map id (models twoModels)) /\
  selected (step (Select 0) twoModels) =
    Some (placedModel "a" "chair.glb" "blob:a" glb zeros ones zeros).
Proof.
  split; [exact NoDup_twoModels|].
  exact (proj1 (click_selects_item twoModels 0 _ NoDup_twoModels eq_refl)).
Defined.

Lemma component_setAxis_other axis value v k :
  k <> axis -> component k (setAxis axis value v) = component k v.
Proof.
  intros Hk. destruct k as [|[|[|k]]]; cbn [component setAxis vx vy vz];
    try reflexivity;
    match goal with
    | |- context [(?a =? axis)%nat] =>
        destruct (Nat.eqb_spec a axis); [congruence | reflexivity]
    end.
Qed.

Lemma slider_selected f idx st :
  slider f idx st =
  match selected st with
  | Some m => component idx (field f m)
  | None => Some (match f with Scale => Fin 1 | _ => Fin 0 end)
  end.
Proof. destruct f; reflexivity. Qed.

(** X15.  With a model selected, after an edit of a field on one of the
    three axes the slider of that field and axis shows the new value, and
    every other slider shows what it showed before. *)
Theorem slider_reads_back_edit :
  forall f axis value st,
    (axis < 3)%nat -> selected st <> None ->
    slider f axis (setSelected f axis value st) = Some value /\
    forall g idx,
      g <> f \/ idx <> axis ->
      slider g idx (setSelected f axis value st) = slider g idx st.
Proof.
  intros f axis value st Haxis Hsel.
  rewrite !slider_selected, selected_setSelected.
  destruct (selected st) as [m|] eqn:Em; [|congruence].
  cbn [option_map]. split.
  - destruct (editOf_frame f axis value m) as (_ & _ & _ & _ & _ & Hc).
    rewrite (Hc axis Haxis), Nat.eqb_refl. reflexivity.
  - intros g idx Hne. rewrite !slider_selected, selected_setSelected, Em.
    cbn [option_map].
    destruct (editOf_frame f axis value m) as (_ & _ & _ & _ & Hf & _).
    destruct f, g; try (rewrite Hf by discriminate; reflexivity);
      cbn [editOf field StudioLayout.withPosition StudioLayout.withScale
           withRotation position scale rotation];
      apply component_setAxis_other; destruct Hne; congruence.
Qed.

Lemma selected_twoModels : selected twoModels <> None.
Proof. discriminate. Qed.

(** X15 at an edit of the y scale of the second of two models. *)
Lemma slider_reads_back_edit_scale :
  (1 < 3)%nat /\ selected twoModels <> None /\
  slider Scale 1 (setSelected Scale 1 (Fin 2) twoModels) = Some (Fin 2).
Proof.
  split; [exact lt_1_3|]. split; [exact selected_twoModels|].
  exact (proj1 (slider_reads_back_edit Scale 1 (Fin 2) twoModels
                  lt_1_3 selected_twoModels)).
Defined.

(** ** How edits compose *)

Lemma setAxis_overwrite axis v1 v2 x :
  setAxis axis v2 (setAxis axis v1 x) = setAxis axis v2 x.
Proof.
  unfold setAxis; cbn [vx vy vz].
  destruct (0 =? axis)%nat, (1 =? axis)%nat, (2 =? axis)%nat; reflexivity.
Qed.

Lemma setAxis_commute a b v w x :
  a <> b -> setAxis a v (setAxis b w x) = setAxis b w (setAxis a v x).
Proof.
  intros Hab. unfold setAxis; cbn [vx vy vz].
  destruct (Nat.eqb_spec 0 a), (Nat.eqb_spec 0 b),
           (Nat.eqb_spec 1 a), (Nat.eqb_spec 1 b),
           (Nat.eqb_spec 2 a), (Nat.eqb_spec 2 b);
    try reflexivity; exfalso; lia.
Qed.

Lemma editOf_overwrite f axis v1 v2 m :
  editOf f axis v2 (editOf f axis v1 m) = editOf f axis v2 m.
Proof. destruct f, m; cbn; rewrite setAxis_overwrite; reflexivity. Qed.

Lemma editOf_commute f g a b v w m :
  f <> g \/ a <> b ->
  editOf f a v (editOf g b w m) = editOf g b w (editOf f a v m).
Proof.
  intros H.
  destruct f, g, m; cbn; try reflexivity;
    (destruct H as [H | H]; [congruence|]);
    rewrite (setAxis_commute a b) by exact H; reflexivity.
Qed.

Lemma setSelected_twice f g a b v w st :
  setSelected f a v (setSelected g b w st) =
  studio (map (fun m => if isSelected (selectedId st) m
                        then editOf f a v (editOf g b w m) else m)
              (models st))
         (selectedId st).
Proof.
  rewrite (setSelected_map f), (setSelected_map g). cbn [models selectedId].
  rewrite map_map. f_equal. apply map_ext. intros m.
  destruct (isSelected (selectedId st) m) eqn:E.
  - rewrite isSelected_editOf, E. reflexivity.
  - rewrite E. reflexivity.
Qed.

(** X16.  A second edit of the same field and axis replaces the first:
    the state after both is the state after the second one alone. *)
Theorem edit_overwrites_edit :
  forall f axis v1 v2 st,
    setSelected f axis v2 (setSelected f axis v1 st) = setSelected f axis v2 st.
Proof.
  intros. rewrite setSelected_twice, setSelected_map. f_equal.
  apply map_ext. intros m. rewrite editOf_overwrite. reflexivity.
Qed.

(** X17.  Edits of different fields, or of different axes of one field,
    can be made in either order: the resulting state is the same. *)
Theorem edits_commute :
  forall f g a b v w st,
    f <> g \/ a <> b ->
    setSelected f a v (setSelected g b w st) =
    setSelected g b w (setSelected f a v st).
Proof.
  intros f g a b v w st H. rewrite !setSelected_twice. f_equal.
  apply map_ext. intros m. rewrite (editOf_commute f g a b v w m H).
  reflexivity.
Qed.

Lemma Position_not_Scale : Position <> Scale \/ 0%nat <> 0%nat.
Proof. left. discriminate. Qed.

(** X17 at an edit of the position and one of the scale. *)
Lemma edits_commute_position_scale :
  (Position <> Scale \/ 0%nat <> 0%nat) /\
  setSelected Position 0 (Fin 2) (setSelected Scale 0 (Fin 3) twoModels) =
  setSelected Scale 0 (Fin 3) (setSelected Position 0 (Fin 2) twoModels).
Proof.
  split; [exact Position_not_Scale|].
  exact (edits_commute Position Scale 0 0 (Fin 2) (Fin 3) twoModels
           Position_not_Scale).
Defined.

(** ** What holds throughout a session *)

Lemma selectionValid_step e st :
  selectionValid st -> selectionValid (step e st).
Proof.
  intros Hv. destruct e as [[fl|] objectUrl newId | k | f axis value];
    cbn [step].
  - unfold handleImport. cbv zeta.
    destruct (negb _ && negb _); cbn [fst]; [exact Hv|].
    right. eexists. split; [apply in_or_app; right; left; reflexivity|].
    reflexivity.
  - exact Hv.
  - destruct (nth_error (models st) k) as [it|] eqn:Ek; [|exact Hv].
    right. exists it. split; [|reflexivity].
    cbn [selectModel models]. eapply nth_error_In. exact Ek.
  - rewrite setSelected_map. destruct Hv as [[Hm Hs] | (m & Hin & Hs)].
    + left. cbn [models selectedId]. rewrite Hm. auto.
    + right. exists (if isSelected (selectedId st) m
                     then editOf f axis value m else m).
      cbn [models selectedId]. split.
      * apply (in_map (fun m => if isSelected (selectedId st) m
                                then editOf f axis value m else m)).
        exact Hin.
      * rewrite Hs. destruct (isSelected (Some (id m)) m); [|reflexivity].
        destruct (editOf_frame f axis value m) as (-> & _). reflexivity.
Qed.

Lemma selectionValid_run es st :
  selectionValid st -> selectionValid (run es st).
Proof.
  revert st. induction es as [|e es IH]; intros st Hv; [exact Hv|].
  cbn [run]. apply IH. apply selectionValid_step. exact Hv.
Qed.

(** X18.  After every sequence of imports, clicks on items and edits, from
    the empty studio: no model is selected exactly when the list is empty,
    and a selected model is a record of the list whose id is the selected
    id. *)
Theorem selection_always_valid :
  forall es,
    let st := run es emptyStudio in
    (selected st = None <-> models st = []) /\
    (forall m, selected st = Some m ->
               In m (models st) /\ selectedId st = Some (id m)).
Proof.
  intros es st. split; [|apply selected_some].
  assert (Hv : selectionValid st).
  { apply selectionValid_run. left. split; reflexivity. }
  split.
  - intros Hnone. destruct Hv as [[Hm _] | (m & Hin & Hs)]; [exact Hm|].
    exfalso. unfold selected in Hnone.
    pose proof (proj1 (find_none_iff _ _) Hnone m Hin) as Hf.
    rewrite Hs in Hf. cbn in Hf. rewrite String.eqb_refl in Hf. discriminate.
  - intros Hm. unfold selected. rewrite Hm. reflexivity.
Qed.

Lemma ids_setSelected f axis value st :
  ids (setSelected f axis value st) = ids st.
Proof.
  unfold ids. rewrite setSelected_map. cbn [models]. rewrite map_map.
  apply map_ext. intros m.
  destruct (isSelected (selectedId st) m); [|reflexivity].
  destruct (editOf_frame f axis value m) as (-> & _). reflexivity.
Qed.

Lemma ids_step_NoDup e st :
  match e with
  | Import _ _ newId => ~ In newId (ids st)
  | _ => True
  end ->
  NoDup (ids st) -> NoDup (ids (step e st)).
Proof.
  intros Hfresh Hnd. destruct e as [[fl|] objectUrl newId | k | f axis value];
    cbn [step].
  - unfold handleImport. cbv zeta.
    destruct (negb _ && negb _); cbn [fst]; [exact Hnd|].
    unfold ids. cbn [models]. rewrite map_app. cbn [map id].
    apply NoDup_snoc; assumption.
  - exact Hnd.
  - destruct (nth_error (models st) k); exact Hnd.
  - rewrite ids_setSelected. exact Hnd.
Qed.

Lemma ids_run_NoDup es st :
  freshImports es st -> NoDup (ids st) -> NoDup (ids (run es st)).
Proof.
  revert st. induction es as [|e es IH]; intros st Hf Hnd; [exact Hnd|].
  cbn [run]. destruct Hf as [He Hes]. apply IH; [exact Hes|].
  apply ids_step_NoDup; assumption.
Qed.

Lemma nth_error_setSelected f axis value st i :
  nth_error (models (setSelected f axis value st)) i =
  option_map (fun m => if isSelected (selectedId st) m
                       then editOf f axis value m else m)
             (nth_error (models st) i).
Proof. rewrite setSelected_map. cbn [models]. apply nth_error_map. Qed.

(** X19.  When every import of a session comes with an id that no placed
    model has at that moment, the ids of the placed models are pairwise
    different, and an edit then changes at most one record of the list. *)
Theorem fresh_ids_one_record_per_edit :
  forall es,
    freshImports es emptyStudio ->
    let st := run es emptyStudio in
    NoDup (map id (models st)) /\
    forall f axis value i j,
      nth_error (models (setSelected f axis value st)) i
        <> nth_error (models st) i ->
      nth_error (models (setSelected f axis value st)) j
        <> nth_error (models st) j ->
      i = j.
Proof.
  intros es Hfresh st.
  assert (Hnd : NoDup (ids st)).
  { apply ids_run_NoDup; [exact Hfresh | constructor]. }
  split; [exact Hnd|].
  intros f axis value i j Hi Hj.
  rewrite nth_error_setSelected in Hi, Hj.
  destruct (nth_error (models st) i) as [mi|] eqn:Ei;
    cbn [option_map] in Hi; [|congruence].
  destruct (nth_error (models st) j) as [mj|] eqn:Ej;
    cbn [option_map] in Hj; [|congruence].
  destruct (isSelected (selectedId st) mi) eqn:Si; [|congruence].
  destruct (isSelected (selectedId st) mj) eqn:Sj; [|congruence].
  apply isSelected_iff in Si, Sj.
  apply (proj1 (NoDup_nth_error (ids st)) Hnd).
  - unfold ids. rewrite length_map. apply nth_error_Some. congruence.
  - unfold ids. rewrite !nth_error_map, Ei, Ej. cbn [option_map]. congruence.
Qed.

Lemma freshImports_session : freshImports session emptyStudio.
Proof.
  cbn. repeat split; try exact I.
  - intros [].
  - intros [H | []]. discriminate.
Qed.

(** X19 at the sample session. *)
Lemma fresh_ids_one_record_per_edit_session :
  freshImports session emptyStudio /\
  NoDup (map id (models (run session emptyStudio))).
Proof.
  split; [exact freshImports_session|].
  exact (proj1 (fresh_ids_one_record_per_edit session freshImports_session)).
Defined.

Lemma source_editOf f axis value m : source (editOf f axis value m) = source m.
Proof.
  unfold source.
  destruct (editOf_frame f axis value m) as (-> & _ & -> & -> & _).
  reflexivity.
Qed.

(** Clicks and edits keep the id, the url and the format of every placed
    model, in the order of the list. *)
Lemma run_keeps_sources es st :
  noImport es = true ->
  map source (models (run es st)) = map source (models st).
Proof.
  revert st. induction es as [|e es IH]; intros st Hes; [reflexivity|].
  cbn [run]. destruct e as [fl objectUrl newId | k | f axis value];
    cbn [noImport] in Hes; [discriminate| |]; rewrite (IH _ Hes); cbn [step].
  - destruct (nth_error (models st) k); reflexivity.
  - rewrite setSelected_map. cbn [models]. rewrite map_map.
    apply map_ext. intros m.
    destruct (isSelected (selectedId st) m); [|reflexivity].
    apply source_editOf.
Qed.

Lemma deps_runEffect env url format m :
  deps (runEffect env url format m) = (url, format).
Proof.
  unfold runEffect. destruct (loadModel env url format (cells m)). reflexivity.
Qed.

(** A [Model] that is rendered again with the props it was mounted or
    rendered with stays as it is. *)
Lemma rerender_same env url format inst :
  deps inst = (url, format) -> rerender env url format inst = inst.
Proof.
  intros H. unfold rerender. rewrite H. cbn [fst snd].
  rewrite !String.eqb_refl. reflexivity.
Qed.

Lemma deps_rerender env url format inst :
  deps (rerender env url format inst) = (url, format).
Proof.
  unfold rerender.
  destruct (String.eqb_spec (fst (deps inst)) url) as [E1|_];
    [|apply deps_runEffect].
  destruct (String.eqb_spec (snd (deps inst)) format) as [E2|_];
    [|apply deps_runEffect].
  cbn [andb]. rewrite <- E1, <- E2. destruct (deps inst); reflexivity.
Qed.

Lemma deps_rendered env url format found :
  deps match found with
       | Some inst => rerender env url format inst
       | None => mount env url format
       end = (url, format).
Proof. destruct found; [apply deps_rerender | apply deps_runEffect]. Qed.

(** With pairwise different keys, the [Model] found under the key of a
    placed model is the one that was rendered for it. *)
Lemma lookup_renderModels env shown ms m :
  NoDup (map id ms) -> In m ms ->
  lookup (id m) (renderModels env shown ms) =
  Some match lookup (id m) shown with
       | Some inst => rerender env (url m) (formatString (format m)) inst
       | None => mount env (url m) (formatString (format m))
       end.
Proof.
  induction ms as [|a ms IH]; intros Hnd Hin; [contradiction|].
  cbn [map] in Hnd. apply NoDup_cons_iff in Hnd as [Hnot Hnd].
  cbn [renderModels map lookup].
  destruct (String.eqb_spec (id a) (id m)) as [E|E].
  - destruct Hin as [-> | Hin]; [reflexivity|].
    exfalso. apply Hnot. rewrite E. apply in_map. exact Hin.
  - destruct Hin as [-> | Hin]; [contradiction|].
    apply IH; assumption.
Qed.

Lemma renderModels_sources env shown ms ms' :
  map source ms' = map source ms ->
  renderModels env shown ms' = renderModels env shown ms.
Proof.
  revert ms'. induction ms as [|m ms IH]; intros [|m' ms'] H;
    try discriminate; [reflexivity|].
  cbn [map] in H. injection H as Hid Hurl Hfmt H.
  cbn [renderModels map]. rewrite Hid, Hurl, Hfmt. f_equal.
  apply IH. exact H.
Qed.

(** The viewer rendered a second time with the same list. *)
Lemma renderModels_again env shown ms :
  NoDup (map id ms) ->
  renderModels env (renderModels env shown ms) ms = renderModels env shown ms.
Proof.
  intros Hnd. unfold renderModels at 1 3.
  apply map_ext_in. intros m Hin.
  rewrite (lookup_renderModels env shown ms m Hnd Hin).
  rewrite rerender_same by apply deps_rendered. reflexivity.
Qed.

(** X20.  Clicks and edits load nothing again.  While the ids of the placed
    models are pairwise different, the viewer rendered after any sequence
    of clicks on items and edits holds the very [Model]s it held before:
    each with the state cells and stored offsets it had and with as many
    runs of its effect, since the effect depends on [url] and [format]
    alone and the edits keep id, url and format. *)
Theorem edits_never_reload :
  forall env es st shown,
    NoDup (ids st) -> noImport es = true ->
    renderModels env (renderModels env shown (models st))
                 (models (run es st)) =
    renderModels env shown (models st).
Proof.
  intros env es st shown Hnd Hes.
  rewrite (renderModels_sources env _ (models st) (models (run es st)))
    by (apply run_keeps_sources; exact Hes).
  apply renderModels_again. exact Hnd.
Qed.

(** X20 at a click and two edits on two models, from the first render of
    the viewer: each [Model] has run its effect once. *)
Lemma edits_never_reload_twoModels :
  NoDup (ids twoModels) /\
  noImport [Select 0; Edit Scale 1 (Fin 2); Edit Rotation 2 (Fin 90)] = true /\
  map (fun entry => effectRuns (snd entry))
      (renderModels crateLoaders (renderModels crateLoaders [] (models twoModels))
         (models (run [Select 0; Edit Scale 1 (Fin 2); Edit Rotation 2 (Fin 90)]
                      twoModels)))
  = [1%nat; 1%nat].
Proof.
  split; [exact NoDup_twoModels|]. split; [reflexivity|].
  rewrite (edits_never_reload crateLoaders
             [Select 0; Edit Scale 1 (Fin 2); Edit Rotation 2 (Fin 90)]
             twoModels [] NoDup_twoModels eq_refl).
  unfold renderModels, twoModels, mount, runEffect. cbn [models map lookup id url format].
  destruct (loadModel crateLoaders "blob:a" (formatString glb) _).
  destruct (loadModel crateLoaders "blob:b" (formatString gltf) _).
  reflexivity.
Defined.

(** X21.  From import to picture: when a file is accepted and the glTF
    loader resolves its url with a scene of positive finite [maxDim], the
    record is appended and the viewer shows it in a group at position
    [(0,0,0)] with scale [(1,1,1)] and the identity rotation, around a
    model whose box has largest extent [2] and its bottom at [y = -1]. *)
Theorem imported_model_is_shown_normalized :
  forall env fl objectUrl newId st n m,
    accepted fl = true ->
    gltfLoad env objectUrl = GltfResolved n ->
    maxDimOf (rawObject n) = Fin m -> 0 < m ->
    exists item g o,
      models (fst (handleImport (Some fl) objectUrl newId st))
        = (models st ++ [item])%list /\
      viewOf env item = Some g /\
      groupPosition g = zeros /\ groupScale g = ones /\
      makeRotationFromEuler (groupRotation g) = identityMatrix /\
      model (fst (mountModel env item)) = Some o /\
      maxDimOf o = Fin 2 /\
      vy (bmin (setFromObject o)) = Fin (-1).
Proof.
  intros env fl objectUrl newId st n m Hacc Hload Hm Hpos.
  destruct (accepted_import fl objectUrl newId st Hacc) as [fmt E].
  rewrite E. cbn [fst models].
  destruct (positive_maxDim_inv n m Hm Hpos)
    as (lx & ly & lz & hx & hy & hz & -> & Hx & Hy & Hz & Hl).
  assert (Hk : 0 < 2 / m) by (apply Rdiv_lt_0_compat; lra).
  assert (Hmount :
    mountModel env
      (placedModel newId (fileName fl) objectUrl fmt zeros ones zeros)
    = (normalize (rawObject (rawNode (finBox lx ly lz hx hy hz))), None)).
  { unfold mountModel, loadModel. cbn [url format].
    rewrite loadByFormat_studio, Hload. reflexivity. }
  eexists. unfold viewOf. rewrite Hmount. cbn [fst].
  rewrite (normalize_finBox lx ly lz hx hy hz m) by assumption.
  unfold render. cbn [model modelPropsOf position scale rotation
                      propPosition propScale propRotation].
  do 2 eexists. split; [reflexivity|]. split; [reflexivity|].
  cbn [groupPosition groupScale groupRotation].
  rewrite adjustedPosition_ones by reflexivity.
  rewrite toRadians_zero, rotation_zero.
  repeat split.
  - rewrite maxDimOf_finBox by (assumption || lra).
    apply Fin_eq. rewrite <- Hl. field. lra.
  - rewrite setFromObject_finBox by (assumption || lra).
    unfold finBox, finVec; cbn [bmin vy]. apply Fin_eq. lra.
Qed.

(** X21 at the import of a file whose scene is the crate. *)
Lemma imported_model_is_shown_normalized_crate :
  accepted (file "crate.glb") = true /\
  gltfLoad crateLoaders "blob:crate" = GltfResolved crate /\
  maxDimOf (rawObject crate) = Fin 4 /\ 0 < 4 /\
  exists item g,
    viewOf crateLoaders item = Some g /\
    groupPosition g = zeros /\ groupScale g = ones.
Proof.
  split; [reflexivity|]. split; [reflexivity|].
  split; [exact maxDimOf_crate|]. split; [exact Rlt_0_4|].
  destruct (imported_model_is_shown_normalized crateLoaders
              (file "crate.glb") "blob:crate" "id-1" emptyStudio crate 4
              eq_refl eq_refl maxDimOf_crate Rlt_0_4)
    as (item & g & o & _ & Hview & Hp & Hs & _).
  exists item, g. repeat split; assumption.
Defined.

(** ** Sequences of view events *)

Lemma isViewTag_iff view : isViewTag view = true <-> In view viewTags.
Proof.
  unfold isViewTag. rewrite existsb_exists. split.
  - intros (x & Hin & E). apply String.eqb_eq in E. subst x. exact Hin.
  - intros Hin. exists view. split; [exact Hin | apply String.eqb_refl].
Qed.

Lemma isViewTag_false view : isViewTag view = false -> ~ In view viewTags.
Proof. intros H Hin. apply isViewTag_iff in Hin. congruence. Qed.

Lemma lastViewTag_cons view rest :
  lastViewTag (view :: rest) =
  match lastViewTag rest with
  | Some v => Some v
  | None => if isViewTag view then Some view else None
  end.
Proof.
  unfold lastViewTag. cbn [rev].
  induction (rev rest) as [|a l IH]; cbn [app find].
  - reflexivity.
  - destruct (isViewTag a); [reflexivity | exact IH].
Qed.

(** X22.  After any sequence of view events on a rig with camera and
    controls, the camera position and the orbit target are those of the
    snap to the last of the six tags in the sequence; when the sequence has
    none of them and the camera was at rest, they are what they were. *)
Theorem last_snap_wins :
  forall views cam controls,
    let r := rig (Some cam) (Some controls) in
    match lastViewTag views with
    | Some view => pose (handleAll views r) = snappedPose view
    | None => atRest r -> pose (handleAll views r) = pose r
    end.
Proof.
  intros views. induction views as [|view rest IH]; intros cam controls r;
    subst r.
  - cbn. reflexivity.
  - cbn [handleAll]. rewrite lastViewTag_cons.
    destruct (isViewTag view) eqn:E.
    + apply isViewTag_iff in E. rewrite (handle_view view cam controls E).
      specialize (IH (camera (snappedPosition view)) (orbitControls origin)).
      cbv zeta in IH. destruct (lastViewTag rest); [exact IH|].
      apply IH. exact (snapped_atRest view E).
    + apply isViewTag_false in E.
      destruct (lastViewTag rest) eqn:Hlast.
      * rewrite (handle_other view cam controls E).
        specialize (IH (fst (update cam controls)) (snd (update cam controls))).
        cbv zeta in IH. exact IH.
      * intros Hrest. rewrite (handle_other view cam controls E).
        unfold atRest in Hrest. cbn [rigCamera controlsRef] in Hrest.
        rewrite (update_atRest cam controls Hrest). cbn [fst snd].
        specialize (IH cam controls). cbv zeta in IH.
        apply IH. exact Hrest.
Qed.

(** X22 at four events from the camera where the canvas puts it: the snap
    to "top" is the last of the six tags. *)
Lemma last_snap_wins_top :
  lastViewTag ["left"; "iso"; "top"; "zoom"] = Some "top" /\
  pose (handleAll ["left"; "iso"; "top"; "zoom"] restingRig) =
    snappedPose "top".
Proof.
  split; [reflexivity|].
  exact (last_snap_wins ["left"; "iso"; "top"; "zoom"]
           (camera (finVec 5 5 5)) (orbitControls zeros)).
Defined.

(** ** The snapped camera and the controls *)

Lemma withinOrbitLimits_64 : withinOrbitLimits (Fin 64) = true.
Proof.
  unfold withinOrbitLimits, minDistance, maxDistance. cbn [mul].
  rewrite !lt_fin_false by lra. reflexivity.
Qed.

(** X23.  For each of the six tags the camera is, after the handler and
    its call of [update()], at squared distance [64] from the orbit
    target, which lies between the squares of the limits [minDistance = 1]
    and [maxDistance = 50] that the controller gives to the controls. *)
Theorem snapped_camera_within_limits :
  forall view cam controls,
    In view viewTags ->
    exists p t,
      pose (handleCameraViewChange view (rig (Some cam) (Some controls)))
        = (Some p, Some t) /\
      distanceToSquared p t = Fin 64 /\
      withinOrbitLimits (distanceToSquared p t) = true.
Proof.
  intros view cam controls Hin.
  rewrite (handle_view view cam controls Hin).
  exists (snappedPosition view), origin.
  split; [reflexivity|].
  rewrite (snapped_distance view Hin).
  split; [reflexivity | exact withinOrbitLimits_64].
Qed.

Lemma bottom_is_view : In "bottom" viewTags.
Proof. unfold viewTags. cbn [In]. tauto. Qed.

(** X23 at the bottom view. *)
Lemma snapped_camera_within_limits_bottom :
  In "bottom" viewTags /\
  exists p t,
    pose (handleCameraViewChange "bottom" restingRig) = (Some p, Some t) /\
    distanceToSquared p t = Fin 64 /\
    withinOrbitLimits (distanceToSquared p t) = true.
Proof.
  split; [exact bottom_is_view|].
  exact (snapped_camera_within_limits "bottom" (camera (finVec 5 5 5))
           (orbitControls zeros) bottom_is_view).
Defined.

(** X24.  Each of the six view buttons of the toolbar reaches the
    controller: the event that [handleCameraView] dispatches for its tag
    has the name the controller listens to, and on a rig with camera and
    controls it ends in the pose of the snap to that view; an event of any
    other name leaves the rig as it is. *)
Theorem toolbar_buttons_snap :
  forall view cam controls,
    In view toolbarViews ->
    pose (dispatchEvent (handleCameraView view)
            (rig (Some cam) (Some controls)))
      = snappedPose view /\
    forall e r, eventType e <> listenedEvent -> dispatchEvent e r = r.
Proof.
  intros view cam controls Hin. split.
  - unfold dispatchEvent, handleCameraView, listenedEvent.
    cbn [eventType detailView].
    replace ("camera-view-change" =? "camera-view-change")%string with true
      by reflexivity.
    rewrite (handle_view view cam controls Hin). reflexivity.
  - intros e r Hne. unfold dispatchEvent.
    destruct (String.eqb_spec (eventType e) listenedEvent); [contradiction|].
    reflexivity.
Qed.

Lemma left_is_button : In "left" toolbarViews.
Proof. unfold toolbarViews. cbn [In]. tauto. Qed.

(** X24 at the button "Left". *)
Lemma toolbar_buttons_snap_left :
  In "left" toolbarViews /\
  pose (dispatchEvent (handleCameraView "left") restingRig)
    = (Some (finVec (-8) 0 0), Some origin).
Proof.
  split; [exact left_is_button|].
  pose proof (proj1 (toolbar_buttons_snap "left" (camera (finVec 5 5 5))
                       (orbitControls zeros) left_is_button)) as H.
  unfold restingRig. rewrite H. unfold snappedPose, snappedPosition, axisUnitVector,
    multiplyScalar, distance, finVec. cbn.
  do 3 f_equal; apply Fin_eq; lra.
Defined.
